(** * simple_game.py: the catch-the-balls game loop

    A shallow embedding of [src/simple_game.py].  The Tk canvas is the
    store shared by the game and its balls: every ball only holds the id
    of its oval, and the coordinates live in the canvas.  Coordinates are
    the floats Tk hands back; every value the game computes is a sum,
    a difference or a half of small integers, which floats represent
    exactly, so they are modelled as rationals ([Q]).  Python integers
    (score, lives, the random column) are [Z].  A Python exception
    (IndexError on [coords[0]], ValueError on [list.remove] or on tuple
    unpacking) is the result [None]. *)

From Stdlib Require Import ZArith QArith Lqa Lia.
From stdpp Require Import base option list gmap.

Local Open Scope Q_scope.

(** ** Module-level constants *)

Definition WIDTH : Q := 500.
Definition HEIGHT : Q := 400.
Definition PADDLE_WIDTH : Q := 100.
Definition PADDLE_HEIGHT : Q := 12.
Definition BALL_RADIUS : Q := 12.
Definition BALL_FALL_SPEED : Q := 4.

(** [a < b] on floats as a boolean; [a <= b] is [Qle_bool]. *)
Definition Qlt_b (a b : Q) : bool := negb (Qle_bool b a).

(** ** The canvas *)

Module Tk.

(** Items are kept by id with their coordinate list; ids are handed out
    in increasing order and never reused.  Labels of text items are not
    read by the game and are left out. *)
Record Canvas := mkCanvas { items : gmap nat (list Q); next_id : nat }.

Definition empty : Canvas := mkCanvas ∅ 1.

(** [create_rectangle], [create_oval] and [create_text] *)
Definition create (cs : list Q) (c : Canvas) : nat * Canvas :=
  (next_id c, mkCanvas (<[next_id c := cs]> (items c)) (S (next_id c))).

Fixpoint shift (dx dy : Q) (cs : list Q) : list Q :=
  match cs with
  | x :: y :: cs' => (x + dx) :: (y + dy) :: shift dx dy cs'
  | _ => cs
  end.

(** [canvas.move(id, dx, dy)]: nothing happens for an unknown id. *)
Definition move (i : nat) (dx dy : Q) (c : Canvas) : Canvas :=
  mkCanvas (alter (shift dx dy) i (items c)) (next_id c).

(** [canvas.coords(id)]: the empty list for an unknown id. *)
Definition coords (i : nat) (c : Canvas) : list Q :=
  default [] (items c !! i).

(** [canvas.delete(id)] *)
Definition delete (i : nat) (c : Canvas) : Canvas :=
  mkCanvas (base.delete i (items c)) (next_id c).

(** [canvas.delete("all")] *)
Definition delete_all (c : Canvas) : Canvas := mkCanvas ∅ (next_id c).

End Tk.

(** ** class Ball *)

Record Ball := mkBall { ball_id : nat; ball_r : Q }.

(** [Ball(canvas, x, y, r)] *)
Definition Ball_new (x y r : Q) (c : Tk.Canvas) : Ball * Tk.Canvas :=
  let '(i, c') := Tk.create [x - r; y - r; x + r; y + r] c in
  (mkBall i r, c').

Definition Ball_move (b : Ball) (dx dy : Q) (c : Tk.Canvas) : Tk.Canvas :=
  Tk.move (ball_id b) dx dy c.

Definition Ball_pos (b : Ball) (c : Tk.Canvas) : option (Q * Q) :=
  let coords := Tk.coords (ball_id b) c in
  c0 ← coords !! 0%nat;
  c2 ← coords !! 2%nat;
  c1 ← coords !! 1%nat;
  c3 ← coords !! 3%nat;
  Some ((c0 + c2) / 2, (c1 + c3) / 2).

Definition Ball_remove (b : Ball) (c : Tk.Canvas) : Tk.Canvas :=
  Tk.delete (ball_id b) c.

(** Balls are compared by identity; the oval id is that identity. *)
Definition Ball_is (a b : Ball) : bool := Nat.eqb (ball_id a) (ball_id b).

(** [list.remove(x)]: drops the first occurrence, raises when there is none. *)
Fixpoint list_remove (x : Ball) (l : list Ball) : option (list Ball) :=
  match l with
  | [] => None
  | y :: l' => if Ball_is y x then Some l' else cons y <$> list_remove x l'
  end.

(** ** class Game *)

Record Game := mkGame {
  canvas : Tk.Canvas;
  paddle_x : Q;
  paddle : nat;
  score : Z;
  lives : Z;
  score_text : nat;
  lives_text : nat;
  move_left : bool;
  move_right : bool;
  balls : list Ball;
  game_over : bool
}.

Definition with_canvas (c : Tk.Canvas) (g : Game) : Game :=
  mkGame c (paddle_x g) (paddle g) (score g) (lives g) (score_text g)
         (lives_text g) (move_left g) (move_right g) (balls g) (game_over g).
Definition with_paddle_x (x : Q) (g : Game) : Game :=
  mkGame (canvas g) x (paddle g) (score g) (lives g) (score_text g)
         (lives_text g) (move_left g) (move_right g) (balls g) (game_over g).
Definition with_score (n : Z) (g : Game) : Game :=
  mkGame (canvas g) (paddle_x g) (paddle g) n (lives g) (score_text g)
         (lives_text g) (move_left g) (move_right g) (balls g) (game_over g).
Definition with_lives (n : Z) (g : Game) : Game :=
  mkGame (canvas g) (paddle_x g) (paddle g) (score g) n (score_text g)
         (lives_text g) (move_left g) (move_right g) (balls g) (game_over g).
Definition with_moves (l r : bool) (g : Game) : Game :=
  mkGame (canvas g) (paddle_x g) (paddle g) (score g) (lives g) (score_text g)
         (lives_text g) l r (balls g) (game_over g).
Definition with_balls (bs : list Ball) (g : Game) : Game :=
  mkGame (canvas g) (paddle_x g) (paddle g) (score g) (lives g) (score_text g)
         (lives_text g) (move_left g) (move_right g) bs (game_over g).
Definition with_game_over (b : bool) (g : Game) : Game :=
  mkGame (canvas g) (paddle_x g) (paddle g) (score g) (lives g) (score_text g)
         (lives_text g) (move_left g) (move_right g) (balls g) b.

(** [set_move]: [dir] is -1 for left, 1 for right, anything else stops. *)
Definition set_move (dir : Z) (g : Game) : Game :=
  if (dir =? -1)%Z then with_moves true false g
  else if (dir =? 1)%Z then with_moves false true g
  else with_moves false false g.

(** [spawn_ball]; [x] is the column drawn by [random.randint]. *)
Definition spawn_ball (x : Z) (g : Game) : Game :=
  if game_over g then g
  else
    let '(ball, c) := Ball_new (inject_Z x) (- BALL_RADIUS) BALL_RADIUS (canvas g) in
    with_balls (balls g ++ [ball]) (with_canvas c g).

(** [end_game]: the flag, then the two overlay texts. *)
Definition end_game (g : Game) : Game :=
  let g := with_game_over true g in
  let c := (Tk.create [WIDTH / 2; HEIGHT / 2] (canvas g)).2 in
  let c := (Tk.create [WIDTH / 2; HEIGHT / 2 + 60] c).2 in
  with_canvas c g.

(** The paddle block of [update]. *)
Definition move_paddle (g : Game) : Game :=
  let dx := 0%Z in
  let speed := 8%Z in
  let dx := if move_left g then (- speed)%Z
            else if move_right g then speed else dx in
  if negb (dx =? 0)%Z then
    let g := with_canvas (Tk.move (paddle g) (inject_Z dx) 0 (canvas g)) g in
    let g := with_paddle_x (paddle_x g + inject_Z dx) g in
    let left := paddle_x g - PADDLE_WIDTH / 2 in
    let right := paddle_x g + PADDLE_WIDTH / 2 in
    let g := if Qlt_b left 0 then
               let shift := - left in
               let g := with_canvas (Tk.move (paddle g) shift 0 (canvas g)) g in
               with_paddle_x (paddle_x g + shift) g
             else g in
    let g := if Qlt_b WIDTH right then
               let shift := WIDTH - right in
               let g := with_canvas (Tk.move (paddle g) shift 0 (canvas g)) g in
               with_paddle_x (paddle_x g + shift) g
             else g in
    g
  else g.

(** The "goes past bottom" test of the loop body, reached when the ball
    was not caught. *)
Definition past_bottom (ball : Ball) (y : Q) (g : Game) : option Game :=
  if Qlt_b HEIGHT (y - ball_r ball) then
    let g := with_lives (lives g - 1) g in
    let g := with_canvas (Ball_remove ball (canvas g)) g in
    bs ← list_remove ball (balls g);
    let g := with_balls bs g in
    Some (if (lives g <=? 0)%Z then end_game g else g)
  else Some g.

(** One pass of the body of [for ball in list(self.balls)]. *)
Definition update_ball (ball : Ball) (g : Game) : option Game :=
  let g := with_canvas (Ball_move ball 0 BALL_FALL_SPEED (canvas g)) g in
  '(x, y) ← Ball_pos ball (canvas g);
  if Qle_bool (HEIGHT - 30 - PADDLE_HEIGHT) (y + ball_r ball) then
    match Tk.coords (paddle g) (canvas g) with
    | [px1; py1; px2; py2] =>
        if Qle_bool px1 x && Qle_bool x px2 then
          let g := with_score (score g + 1) g in
          let g := with_canvas (Ball_remove ball (canvas g)) g in
          bs ← list_remove ball (balls g);
          Some (with_balls bs g)
        else past_bottom ball y g
    | _ => None
    end
  else past_bottom ball y g.

(** The loop over the copy [list(self.balls)]. *)
Fixpoint for_balls (snapshot : list Ball) (g : Game) : option Game :=
  match snapshot with
  | [] => Some g
  | ball :: rest => g' ← update_ball ball g; for_balls rest g'
  end.

Definition update (g : Game) : option Game :=
  if game_over g then Some g
  else
    let g := move_paddle g in
    for_balls (balls g) g.

(** The fields set by [__init__] and again by [restart], before the
    closing call of [update]. *)
Definition reset (c : Tk.Canvas) (ml mr : bool) : Game :=
  let paddle_x := WIDTH / 2 in
  let '(paddle, c) :=
    Tk.create [paddle_x - PADDLE_WIDTH / 2; HEIGHT - 30 - PADDLE_HEIGHT;
               paddle_x + PADDLE_WIDTH / 2; HEIGHT - 30] c in
  let score := 0%Z in
  let lives := 3%Z in
  let '(score_text, c) := Tk.create [10; 10] c in
  let '(lives_text, c) := Tk.create [WIDTH - 10; 10] c in
  mkGame c paddle_x paddle score lives score_text lives_text ml mr [] false.

(** [Game.__init__] *)
Definition Game_init : option Game := update (reset Tk.empty false false).

(** [restart]: the movement flags are not touched. *)
Definition restart (g : Game) : option Game :=
  update (reset (Tk.delete_all (canvas g)) (move_left g) (move_right g)).

(** ** The event loop as the environment

    [root.after] and the key bindings only decide when the callbacks run;
    the loop is single-threaded, so a run of the program is a sequence
    of callbacks. *)

Inductive Event :=
| Tick                (* update *)
| Spawn (x : Z)       (* spawn_ball, with the column drawn *)
| Key (dir : Z)       (* set_move *)
| Restart.            (* restart *)

Definition fire (e : Event) (g : Game) : option Game :=
  match e with
  | Tick => update g
  | Spawn x => Some (spawn_ball x g)
  | Key dir => Some (set_move dir g)
  | Restart => restart g
  end.

Fixpoint run (es : list Event) (g : Game) : option Game :=
  match es with
  | [] => Some g
  | e :: es' => g' ← fire e g; run es' g'
  end.

(** What the environment can pass: [randint(BALL_RADIUS, WIDTH - BALL_RADIUS)]
    and the three directions of the key bindings.  The [r] key is bound
    by the first [end_game] and stays bound; a restart is allowed at any
    point here, which only makes [reachable] larger. *)
Definition allowed (e : Event) : Prop :=
  match e with
  | Spawn x => (12 <= x <= 488)%Z
  | Key dir => dir = (-1)%Z ∨ dir = 0%Z ∨ dir = 1%Z
  | _ => True
  end.

Definition reachable (g : Game) : Prop :=
  ∃ g0 es, Game_init = Some g0 ∧ Forall allowed es ∧ run es g0 = Some g.

(** ** The classifier and the outcomes of the specification *)

Inductive Outcome := Caught | Missed | Falling.

#[global] Instance Outcome_eq_dec : EqDecision Outcome.
Proof. solve_decision. Defined.

(** Section 4.3 in the specification's words: caught when the bottom edge
    has reached [floorY] and the centre is within the closed paddle span;
    failing that, missed when the top edge is strictly below the play
    area; falling otherwise. *)
Definition classify (x y r left right floorY playAreaHeight : Q) : Outcome :=
  if Qle_bool floorY (y + r) && (Qle_bool left x && Qle_bool x right)
  then Caught
  else if Qlt_b playAreaHeight (y - r) then Missed
  else Falling.

(** What the loop body does to the game for each outcome (the bodies of
    its "caught" and "missed" branches; section 4.4, step 3), with the
    list left by [self.balls.remove(ball)] passed in. *)
Definition settle (o : Outcome) (ball : Ball) (bs : list Ball) (g : Game) : Game :=
  match o with
  | Caught =>
      with_balls bs
        (with_canvas (Ball_remove ball (canvas g)) (with_score (score g + 1) g))
  | Missed =>
      let g := with_balls bs
        (with_canvas (Ball_remove ball (canvas g)) (with_lives (lives g - 1) g)) in
      if (lives g <=? 0)%Z then end_game g else g
  | Falling => g
  end.

(** The canvas once [ball.move(0, BALL_FALL_SPEED)] has run. *)
Definition advanced (ball : Ball) (g : Game) : Tk.Canvas :=
  Ball_move ball 0 BALL_FALL_SPEED (canvas g).

(** The y-coordinate of the paddle's top edge. *)
Definition floorY : Q := HEIGHT - 30 - PADDLE_HEIGHT.

(** The outcome of a ball, read off the canvas at the start of its pass. *)
Definition outcome_of (g : Game) (ball : Ball) : Outcome :=
  match Ball_pos ball (advanced ball g), Tk.coords (paddle g) (advanced ball g) with
  | Some (x, y), [px1; _; px2; _] =>
      classify x y (ball_r ball) px1 px2 floorY HEIGHT
  | _, _ => Falling
  end.

(** ** Well-formed games

    What [__init__] establishes and every callback keeps: item ids are
    below the next id to hand out, the paddle is a rectangle centred on
    [paddle_x], and the live balls are distinct ovals, none of them the
    paddle. *)

Definition rect (o : option (list Q)) : Prop :=
  ∃ x1 y1 x2 y2, o = Some [x1; y1; x2; y2].

Definition canvas_ok (c : Tk.Canvas) : Prop :=
  ∀ i, is_Some (Tk.items c !! i) → (i < Tk.next_id c)%nat.

Record wf (g : Game) : Prop := mkWf {
  wf_canvas : canvas_ok (canvas g);
  wf_paddle : ∃ x1 y1 x2 y2,
      Tk.items (canvas g) !! paddle g = Some [x1; y1; x2; y2] ∧
      x1 == paddle_x g - PADDLE_WIDTH / 2 ∧ x2 == paddle_x g + PADDLE_WIDTH / 2;
  wf_balls : ∀ b, b ∈ balls g →
      rect (Tk.items (canvas g) !! ball_id b) ∧ ball_id b ≠ paddle g;
  wf_nodup : NoDup (ball_id <$> balls g)
}.

(** Score, lives and the game-over flag, and what one outcome does to
    them. *)
Definition stats (g : Game) : Z * Z * bool := (score g, lives g, game_over g).

Definition tally (s : Z * Z * bool) (o : Outcome) : Z * Z * bool :=
  let '(sc, lv, go) := s in
  match o with
  | Caught => ((sc + 1)%Z, lv, go)
  | Missed => (sc, (lv - 1)%Z, go || (lv - 1 <=? 0)%Z)
  | Falling => s
  end.

(** The displacement picked from the movement flags (the [dx] of [update])
    and one call of [canvas.move] on the paddle with its [paddle_x +=]. *)
Definition paddle_dx (g : Game) : Z :=
  if move_left g then (-8)%Z else if move_right g then 8%Z else 0%Z.

Definition slide (d : Q) (g : Game) : Game :=
  with_paddle_x (paddle_x g + d)
    (with_canvas (Tk.move (paddle g) d 0 (canvas g)) g).

(** How many balls of a tick had a given outcome. *)
Definition count_of (o : Outcome) (os : list Outcome) : Z :=
  Z.of_nat (length (filter (λ x, x = o) os)).

(** ** Sample runs *)

(** The game after [__init__] and the given callbacks. *)
Definition after (es : list Event) : option Game := Game_init ≫= run es.

(** A ball dropped over the middle of the resting paddle, one tick before
    its bottom edge reaches the paddle row. *)
Definition above_paddle : list Event := Spawn 250 :: replicate 89 Tick.

Definition start : Game := reset Tk.empty false false.

(** The state a run ends in ([start] stands in for a run that raised). *)
Definition state_after (es : list Event) : Game := default start (after es).

(** Three balls spawned together and never caught: the game is over on
    tick 107. *)
Definition three_misses : list Event :=
  replicate 3 (Spawn 100) ++ replicate 107 Tick.

(** A run of key events alone. *)
Definition press (dirs : list Z) (g : Game) : Game :=
  foldl (λ g dir, set_move dir g) g dirs.

(** The paddle run to the left wall: 25 steps of 8 from the middle. *)
Definition at_left_wall : list Event := Key (-1) :: replicate 25 Tick.

(** A ball that comes down right of the paddle; the paddle starts after it
    once the ball's bottom edge is past the paddle row, and reaches it on
    the next tick, with the ball wholly below the paddle. *)
Definition chase : list Event :=
  Spawn 380 :: replicate 90 Tick ++ Key 1 :: replicate 9 Tick.

(** Two balls lost on tick 107, a third due to be lost on tick 108, and a
    fourth over the paddle due to be caught on that same tick. *)
Definition last_life : list Event :=
  [Spawn 100; Spawn 100; Tick; Spawn 100] ++ replicate 17 Tick ++
  [Spawn 250] ++ replicate 89 Tick.

(** Four balls spawned together and never caught. *)
Definition four_misses : list Event :=
  replicate 4 (Spawn 100) ++ replicate 107 Tick.

(** ** Shapes kept by the game *)

(** A live ball as [spawn_ball] makes it and the loop keeps it: radius
    [BALL_RADIUS] and an oval of that radius around a centre [(x, y)] whose
    column is within the range of [randint], which is not above the spawn
    row and whose top edge is not below the play area. *)
Definition ball_ok (g : Game) (b : Ball) : Prop :=
  ball_r b = BALL_RADIUS ∧
  ∃ x1 y1 x2 y2 x y,
    Tk.items (canvas g) !! ball_id b = Some [x1; y1; x2; y2] ∧
    x1 == x - BALL_RADIUS ∧ y1 == y - BALL_RADIUS ∧
    x2 == x + BALL_RADIUS ∧ y2 == y + BALL_RADIUS ∧
    BALL_RADIUS <= x <= WIDTH - BALL_RADIUS ∧
    - BALL_RADIUS <= y ∧ y - BALL_RADIUS <= HEIGHT.

(** Score, lives and phase as they go together. *)
Definition tally_ok (g : Game) : Prop :=
  (0 <= score g)%Z ∧ (lives g <= 3)%Z ∧
  (game_over g = true ↔ (lives g <= 0)%Z).

(** ** The timers and the [r] binding

    [root.after(ms, f)] leaves one pending call of [f]; the loop runs the
    pending calls one at a time, each no earlier than its delay.  The
    delays are left out here: a state keeps how many calls of [update] and
    of [spawn_ball] are pending, and any pending call may run next.
    [root.bind("r", ...)] is made by [end_game] and never undone. *)

Module Loop.

Record State := mkState {
  game : Game;
  update_timers : nat;
  spawn_timers : nat;
  r_bound : bool
}.

(** [self.update()]: the body, then [root.after(UPDATE_DELAY, self.update)]
    unless the game is over.  [end_game] runs inside exactly when the
    game-over flag goes up during the call, and binds [r]. *)
Definition call_update (s : State) : option State :=
  g' ← update (game s);
  Some (mkState g'
          (update_timers s + (if game_over g' then 0 else 1))
          (spawn_timers s)
          (r_bound s || (negb (game_over (game s)) && game_over g'))).

(** [self.spawn_ball()]: nothing when the game is over, else the ball and
    [root.after(SPAWN_INTERVAL, self.spawn_ball)]. *)
Definition call_spawn (x : Z) (s : State) : State :=
  mkState (spawn_ball x (game s))
          (update_timers s)
          (spawn_timers s + (if game_over (game s) then 0 else 1))
          (r_bound s).

(** [self.restart()]: the reset, [root.after(SPAWN_INTERVAL, ...)], then
    [self.update()] with its own [root.after]. *)
Definition call_restart (s : State) : option State :=
  g' ← restart (game s);
  Some (mkState g'
          (update_timers s + (if game_over g' then 0 else 1))
          (spawn_timers s + 1)
          (r_bound s || (negb (game_over (game s)) && game_over g'))).

Inductive Ev :=
| UpdateTimer            (* a pending call of update runs *)
| SpawnTimer (x : Z)     (* a pending call of spawn_ball runs *)
| KeyEv (dir : Z)        (* an arrow key goes down or up *)
| PressR.                (* the r key goes down *)

Definition enabled (e : Ev) (s : State) : Prop :=
  match e with
  | UpdateTimer => (0 < update_timers s)%nat
  | SpawnTimer x => (0 < spawn_timers s)%nat ∧ (12 <= x <= 488)%Z
  | KeyEv dir => dir = (-1)%Z ∨ dir = 0%Z ∨ dir = 1%Z
  | PressR => True
  end.

Definition step (e : Ev) (s : State) : option State :=
  match e with
  | UpdateTimer =>
      call_update
        (mkState (game s) (pred (update_timers s)) (spawn_timers s) (r_bound s))
  | SpawnTimer x =>
      Some (call_spawn x
              (mkState (game s) (update_timers s) (pred (spawn_timers s))
                       (r_bound s)))
  | KeyEv dir =>
      Some (mkState (set_move dir (game s)) (update_timers s) (spawn_timers s)
                    (r_bound s))
  | PressR => if r_bound s then call_restart s else Some s
  end.

(** [Game.__init__]: the fields, [root.after(SPAWN_INTERVAL, ...)], then
    [self.update()]. *)
Definition init : option State :=
  call_update (mkState (reset Tk.empty false false) 0 1 false).

(** The states the loop gets to with events that satisfy [P]. *)
Inductive reachable_by (P : Ev → Prop) : State → Prop :=
| reach_init s : init = Some s → reachable_by P s
| reach_step e s s' :
    reachable_by P s → P e → enabled e s → step e s = Some s' →
    reachable_by P s'.

Definition reachable : State → Prop := reachable_by (λ _, True).

End Loop.

(** Runs of the loop for the sample states: [enabled] as a test, and the
    events run in turn ([None] when one is not enabled or raises). *)
Definition loop_enabledb (e : Loop.Ev) (s : Loop.State) : bool :=
  match e with
  | Loop.UpdateTimer => bool_decide (0 < Loop.update_timers s)%nat
  | Loop.SpawnTimer x =>
      bool_decide (0 < Loop.spawn_timers s)%nat && (12 <=? x)%Z && (x <=? 488)%Z
  | Loop.KeyEv dir => (dir =? -1)%Z || (dir =? 0)%Z || (dir =? 1)%Z
  | Loop.PressR => true
  end.

Fixpoint loop_run (es : list Loop.Ev) (s : Loop.State) : option Loop.State :=
  match es with
  | [] => Some s
  | e :: es' =>
      if loop_enabledb e s then s' ← Loop.step e s; loop_run es' s' else None
  end.

Definition loop_after (es : list Loop.Ev) : Loop.State :=
  default (Loop.mkState start 1 1 false) (Loop.init ≫= loop_run es).

(** One ball spawned and lost, three times over: the first game ends. *)
Definition lose_a_ball : list Loop.Ev :=
  Loop.SpawnTimer 100 :: replicate 107 Loop.UpdateTimer.

Definition first_game_over : list Loop.Ev :=
  lose_a_ball ++ lose_a_ball ++ lose_a_ball.

(** A ball over the paddle, one tick into its fall. *)
Definition one_ball : list Event := [Spawn 250; Tick].

(** Whole numbers among the coordinates. *)
Definition whole (q : Q) : Prop := ∃ z : Z, q == inject_Z z.

Definition whole_canvas (c : Tk.Canvas) : Prop :=
  ∀ i cs, Tk.items c !! i = Some cs → Forall whole cs.

Definition whole_game (g : Game) : Prop :=
  whole (paddle_x g) ∧ whole_canvas (canvas g).

(** How many of the events are ticks. *)
Fixpoint ticks (es : list Event) : nat :=
  match es with
  | [] => 0
  | Tick :: es' => S (ticks es')
  | _ :: es' => ticks es'
  end.

(** The top edge of a ball's oval is at or below [q]. *)
Definition top_from (q : Q) (g : Game) (b : Ball) : Prop :=
  ∃ x1 y1 x2 y2,
    Tk.items (canvas g) !! ball_id b = Some [x1; y1; x2; y2] ∧ q <= y1.

(** * Proofs *)

(** ** Comparisons *)

Lemma Qle_bool_false (a b : Q) : Qle_bool a b = false ↔ b < a.
Proof.
  split; intros H.
  - apply Qnot_le_lt. intros Hle. apply Qle_bool_iff in Hle. congruence.
  - destruct (Qle_bool a b) eqn:E; [|done].
    apply Qle_bool_iff in E. exfalso. eapply Qlt_not_le; eauto.
Qed.

Lemma Qlt_b_true (a b : Q) : Qlt_b a b = true ↔ a < b.
Proof. unfold Qlt_b. rewrite negb_true_iff. apply Qle_bool_false. Qed.

Lemma Qlt_b_false (a b : Q) : Qlt_b a b = false ↔ b <= a.
Proof. unfold Qlt_b. rewrite negb_false_iff. apply Qle_bool_iff. Qed.

(** Split on every float comparison in sight and keep the inequality. *)
Ltac qcases :=
  repeat match goal with
    | |- context [Qle_bool ?a ?b] =>
        let E := fresh "E" in
        destruct (Qle_bool a b) eqn:E;
        [apply Qle_bool_iff in E | apply Qle_bool_false in E]
    | |- context [Qlt_b ?a ?b] =>
        let E := fresh "E" in
        destruct (Qlt_b a b) eqn:E;
        [apply Qlt_b_true in E | apply Qlt_b_false in E]
    end.

(** ** The classifier *)

Lemma classify_Caught x y r l rt f h :
  classify x y r l rt f h = Caught ↔ f <= y + r ∧ l <= x ∧ x <= rt.
Proof.
  unfold classify. qcases; simpl; split; try done; try lra.
Qed.

Lemma classify_Missed x y r l rt f h :
  classify x y r l rt f h = Missed ↔ ¬ (f <= y + r ∧ l <= x ∧ x <= rt) ∧ h < y - r.
Proof.
  unfold classify. qcases; simpl; split; try done; try lra.
  all: intros _; split; [lra | done].
Qed.

Lemma classify_Falling x y r l rt f h :
  classify x y r l rt f h = Falling ↔
  ¬ (f <= y + r ∧ l <= x ∧ x <= rt) ∧ y - r <= h.
Proof.
  unfold classify. qcases; simpl; split; try done; try lra.
  all: intros _; split; [lra | done].
Qed.

(** The loop body is the classifier followed by the outcome's effects. *)
Lemma update_ball_settle g ball x y px1 py1 px2 py2 bs :
  Ball_pos ball (advanced ball g) = Some (x, y) →
  Tk.coords (paddle g) (advanced ball g) = [px1; py1; px2; py2] →
  list_remove ball (balls g) = Some bs →
  update_ball ball g =
    Some (settle (classify x y (ball_r ball) px1 px2 floorY HEIGHT) ball bs
            (with_canvas (advanced ball g) g)).
Proof.
  unfold advanced. intros Hpos Hpad Hrm.
  unfold update_ball, past_bottom, classify, floorY. simpl.
  rewrite Hpos. simpl. rewrite Hpad, Hrm.
  qcases; simpl; try reflexivity.
Qed.

(** ** Lists of balls *)

Lemma rect_is_Some o : rect o → is_Some o.
Proof. intros (?&?&?&?&->). eauto. Qed.

Lemma rect_shift dx dy o : rect o → rect (Tk.shift dx dy <$> o).
Proof. intros (x1&y1&x2&y2&->). simpl. repeat eexists. Qed.

Lemma same_id_same_ball (l : list Ball) a b :
  NoDup (ball_id <$> l) → a ∈ l → b ∈ l → ball_id a = ball_id b → a = b.
Proof.
  induction l as [|c l IH]; intros Hnd Ha Hb Hid; [by inversion Ha|].
  rewrite fmap_cons in Hnd. apply NoDup_cons in Hnd as [Hc Hnd].
  apply elem_of_cons in Ha as [->|Ha]; apply elem_of_cons in Hb as [->|Hb];
    try done.
  - exfalso. apply Hc. rewrite Hid. by apply list_elem_of_fmap_2.
  - exfalso. apply Hc. rewrite <- Hid. by apply list_elem_of_fmap_2.
  - by apply IH.
Qed.

Lemma Ball_is_true a b : Ball_is a b = true ↔ ball_id a = ball_id b.
Proof. unfold Ball_is. apply Nat.eqb_eq. Qed.

Lemma filter_ext_on {A} (P1 P2 : A → Prop)
    `{!∀ x, Decision (P1 x), !∀ x, Decision (P2 x)} (l : list A) :
  (∀ x, x ∈ l → P1 x ↔ P2 x) → filter P1 l = filter P2 l.
Proof.
  induction l as [|a l IH]; intros Hiff; [done|].
  assert (filter P1 l = filter P2 l) as Hl.
  { apply IH. intros x Hx. apply Hiff. by right. }
  destruct (decide (P1 a)) as [Ha|Ha].
  - rewrite !filter_cons_True; [by rewrite Hl|..]; [|done].
    apply Hiff; [left|done].
  - rewrite !filter_cons_False; [done|..]; [|done].
    intros Hb. apply Ha, Hiff; [left|done].
Qed.

Lemma filter_keeps_all {A} (P : A → Prop) `{!∀ x, Decision (P x)} (l : list A) :
  (∀ x, x ∈ l → P x) → filter P l = l.
Proof.
  induction l as [|a l IH]; intros HP; [done|].
  rewrite filter_cons_True by (apply HP; left).
  f_equal. apply IH. intros x Hx. apply HP. by right.
Qed.

(** With distinct ids, [list.remove] succeeds on a member and filters it out. *)
Lemma list_remove_member (l : list Ball) b :
  NoDup (ball_id <$> l) → b ∈ l →
  list_remove b l = Some (filter (λ b', ball_id b' ≠ ball_id b) l).
Proof.
  induction l as [|c l IH]; intros Hnd Hb; [by inversion Hb|].
  rewrite fmap_cons in Hnd. apply NoDup_cons in Hnd as [Hc Hnd]. simpl.
  destruct (Ball_is c b) eqn:E.
  - apply Ball_is_true in E. rewrite filter_cons_False by tauto.
    f_equal. symmetry. apply filter_keeps_all.
    intros x Hx Hid. apply Hc. rewrite E, <- Hid.
    by apply list_elem_of_fmap_2.
  - assert (ball_id c ≠ ball_id b) as Hne.
    { intros Hid. apply Ball_is_true in Hid. congruence. }
    apply elem_of_cons in Hb as [->|Hb]; [done|].
    rewrite IH by done. simpl. by rewrite filter_cons_True.
Qed.

(** ** Canvas operations keep ids in range and leave other items alone *)

Lemma canvas_ok_move i dx dy c : canvas_ok c → canvas_ok (Tk.move i dx dy c).
Proof.
  intros Hc j. simpl. rewrite lookup_alter_is_Some. apply Hc.
Qed.

Lemma canvas_ok_delete i c : canvas_ok c → canvas_ok (Tk.delete i c).
Proof.
  intros Hc j. simpl. rewrite lookup_delete_is_Some. intros [_ Hj]. by apply Hc.
Qed.

Lemma canvas_ok_create cs c : canvas_ok c → canvas_ok (Tk.create cs c).2.
Proof.
  intros Hc j. simpl. rewrite lookup_insert_is_Some.
  intros [<-|[_ Hj]]; [lia|]. apply Hc in Hj. lia.
Qed.

Lemma lookup_create_old cs c i :
  (i < Tk.next_id c)%nat →
  Tk.items (Tk.create cs c).2 !! i = Tk.items c !! i.
Proof. intros Hi. simpl. apply lookup_insert_ne. lia. Qed.

Lemma wf_change g g' :
  canvas g' = canvas g → paddle_x g' = paddle_x g → paddle g' = paddle g →
  balls g' = balls g → wf g → wf g'.
Proof.
  intros Hc Hx Hp Hb [H1 H2 H3 H4].
  split; rewrite ?Hc, ?Hx, ?Hp, ?Hb; done.
Qed.

Lemma wf_advanced g b : wf g → wf (with_canvas (advanced b g) g).
Proof.
  intros [H1 (x1&y1&x2&y2&Hp&Hx1&Hx2) H3 H4].
  split; simpl; [by apply canvas_ok_move| |intros b' Hb'|done].
  - destruct (decide (ball_id b = paddle g)) as [Heq|Hne].
    + rewrite Heq, lookup_alter_eq, Hp. simpl.
      exists (x1 + 0), (y1 + BALL_FALL_SPEED), (x2 + 0), (y2 + BALL_FALL_SPEED).
      split; [done|]. split; lra.
    + rewrite lookup_alter_ne by done. eauto 10.
  - destruct (H3 b' Hb') as [Hr Hne]. split; [|done].
    rewrite lookup_alter. case_decide as Hid; [|done].
    rewrite Hid. by apply rect_shift.
Qed.

Lemma wf_removed g b :
  wf g → ball_id b ≠ paddle g →
  wf (with_balls (filter (λ b', ball_id b' ≠ ball_id b) (balls g))
        (with_canvas (Ball_remove b (canvas g)) g)).
Proof.
  intros [H1 (x1&y1&x2&y2&Hp&Hx1&Hx2) H3 H4] Hbp.
  split; simpl; [by apply canvas_ok_delete| |intros b' Hb'|].
  - rewrite lookup_delete_ne by done. eauto 10.
  - apply list_elem_of_filter in Hb' as [Hne Hb'].
    rewrite lookup_delete_ne by done. by apply H3.
  - induction (balls g) as [|c l IH]; [done|].
    rewrite fmap_cons in H4. apply NoDup_cons in H4 as [Hc Hnd].
    assert (NoDup (ball_id <$> filter (λ b', ball_id b' ≠ ball_id b) l)) as Hl.
    { apply IH; [|done]. intros b' Hb'. apply H3. by right. }
    rewrite filter_cons. case_decide; [|done].
    rewrite fmap_cons. apply NoDup_cons. split; [|done].
    intros (c'&Hid&Hc')%list_elem_of_fmap.
    apply list_elem_of_filter in Hc' as [_ Hc'].
    apply Hc. rewrite Hid. by apply list_elem_of_fmap_2.
Qed.

Lemma wf_end_game g : wf g → wf (end_game g).
Proof.
  intros [H1 (x1&y1&x2&y2&Hp&Hx1&Hx2) H3 H4].
  unfold end_game.
  split; cbn [canvas paddle paddle_x balls with_canvas with_game_over].
  - by do 2 apply canvas_ok_create.
  - assert (paddle g < Tk.next_id (canvas g))%nat as Hlt by (apply H1; eauto).
    rewrite !lookup_create_old by (simpl; lia). eauto 10.
  - intros b Hb. destruct (H3 b Hb) as [Hr Hne]. split; [|done].
    assert (ball_id b < Tk.next_id (canvas g))%nat as Hlt.
    { by apply H1, rect_is_Some. }
    by rewrite !lookup_create_old by (simpl; lia).
  - done.
Qed.

(** ** One pass of the loop body on a live ball *)

Lemma advanced_pos g b x1 y1 x2 y2 :
  Tk.items (canvas g) !! ball_id b = Some [x1; y1; x2; y2] →
  Ball_pos b (advanced b g) =
    Some ((x1 + 0 + (x2 + 0)) / 2,
          (y1 + BALL_FALL_SPEED + (y2 + BALL_FALL_SPEED)) / 2).
Proof.
  intros H. unfold Ball_pos, advanced, Ball_move, Tk.coords. simpl.
  by rewrite lookup_alter_eq, H.
Qed.

Lemma advanced_other g b i :
  i ≠ ball_id b → Tk.items (advanced b g) !! i = Tk.items (canvas g) !! i.
Proof. intros H. simpl. by apply lookup_alter_ne. Qed.

Lemma wf_with_score n g : wf g → wf (with_score n g).
Proof. by apply wf_change. Qed.

Lemma wf_with_lives n g : wf g → wf (with_lives n g).
Proof. by apply wf_change. Qed.

Lemma update_ball_live g b :
  wf g → b ∈ balls g →
  ∃ g', update_ball b g = Some g' ∧ wf g' ∧
    paddle g' = paddle g ∧ paddle_x g' = paddle_x g ∧
    move_left g' = move_left g ∧ move_right g' = move_right g ∧
    (∀ i, i ≠ ball_id b → (i < Tk.next_id (canvas g))%nat →
          Tk.items (canvas g') !! i = Tk.items (canvas g) !! i) ∧
    stats g' = tally (stats g) (outcome_of g b) ∧
    balls g' =
      filter (λ b', ball_id b' ≠ ball_id b ∨ outcome_of g b = Falling) (balls g).
Proof.
  intros Hwf Hb.
  destruct (wf_balls g Hwf b Hb) as [(a1&b1&a2&b2&Hc) Hne].
  destruct (wf_paddle g Hwf) as (x1&y1&x2&y2&Hp&_).
  pose proof (advanced_pos g b _ _ _ _ Hc) as Hpos.
  assert (Tk.coords (paddle g) (advanced b g) = [x1; y1; x2; y2]) as Hpad.
  { unfold Tk.coords. by rewrite advanced_other, Hp. }
  pose proof (list_remove_member _ b (wf_nodup g Hwf) Hb) as Hrm.
  rewrite (update_ball_settle g b _ _ _ _ _ _ _ Hpos Hpad Hrm).
  eexists. split; [reflexivity|].
  assert (outcome_of g b =
          classify ((a1 + 0 + (a2 + 0)) / 2)
            ((b1 + BALL_FALL_SPEED + (b2 + BALL_FALL_SPEED)) / 2)
            (ball_r b) x1 x2 floorY HEIGHT) as Ho.
  { unfold outcome_of. by rewrite Hpos, Hpad. }
  rewrite Ho.
  pose proof (wf_advanced g b Hwf) as Hwf1.
  set (g1 := with_canvas (advanced b g) g) in *.
  destruct (classify _ _ _ _ _ _ _); cbn [settle].
  - split.
    { apply (wf_removed (with_score (score g1 + 1) g1) b); [|done].
      by apply wf_with_score. }
    repeat split; try done.
    + intros i Hi _. simpl. rewrite lookup_delete_ne by done.
      by apply lookup_alter_ne.
    + simpl. apply filter_ext_on. intros b' _. split; [tauto|].
      by intros [?|?].
  - set (g2 := with_balls _ _).
    assert (wf g2) as Hwf2.
    { apply (wf_removed (with_lives (lives g1 - 1) g1) b); [|done].
      by apply wf_with_lives. }
    assert (∀ i, i ≠ ball_id b →
              Tk.items (canvas g2) !! i = Tk.items (canvas g) !! i) as Hfr.
    { intros i Hi. simpl. rewrite lookup_delete_ne by done.
      by apply lookup_alter_ne. }
    assert (balls g2 =
            filter (λ b', ball_id b' ≠ ball_id b ∨ Missed = Falling) (balls g))
      as Hbs.
    { simpl. apply filter_ext_on. intros b' _. split; [tauto|].
      by intros [?|?]. }
    change (lives g2) with (lives g - 1)%Z.
    destruct (lives g - 1 <=? 0)%Z eqn:E.
    + split; [by apply wf_end_game|].
      repeat split; try done.
      * intros i Hi Hlt. unfold end_game.
        cbn [canvas with_canvas with_game_over].
        rewrite !lookup_create_old; [by apply Hfr|simpl; lia..].
      * unfold stats. simpl. rewrite E. by rewrite orb_true_r.
    + split; [done|]. repeat split; try done.
      * intros i Hi _. by apply Hfr.
      * unfold stats. simpl. rewrite E. by rewrite orb_false_r.
  - split; [done|]. repeat split; try done.
    + intros i Hi _. by apply advanced_other.
    + simpl. symmetry. apply filter_keeps_all. tauto.
Qed.

(** A ball's outcome only depends on its own oval and on the paddle. *)
Lemma outcome_of_ext g g' b :
  paddle g' = paddle g →
  Tk.items (canvas g') !! ball_id b = Tk.items (canvas g) !! ball_id b →
  Tk.items (canvas g') !! paddle g = Tk.items (canvas g) !! paddle g →
  outcome_of g' b = outcome_of g b.
Proof.
  intros Hp Hb Hpad.
  unfold outcome_of, Ball_pos, advanced, Ball_move, Tk.coords, Tk.move.
  cbn [Tk.items]. rewrite Hp, !lookup_alter, Hb, Hpad. done.
Qed.

Lemma live_below_next g b :
  wf g → b ∈ balls g → (ball_id b < Tk.next_id (canvas g))%nat.
Proof.
  intros Hwf Hb. apply (wf_canvas g Hwf), rect_is_Some.
  by apply (wf_balls g Hwf).
Qed.

Lemma paddle_below_next g : wf g → (paddle g < Tk.next_id (canvas g))%nat.
Proof.
  intros Hwf. apply (wf_canvas g Hwf).
  destruct (wf_paddle g Hwf) as (?&?&?&?&->&_). eauto.
Qed.

(** ** The whole loop *)

Lemma for_balls_live l g :
  wf g → NoDup (ball_id <$> l) → (∀ b, b ∈ l → b ∈ balls g) →
  ∃ g', for_balls l g = Some g' ∧ wf g' ∧
    paddle g' = paddle g ∧ paddle_x g' = paddle_x g ∧
    move_left g' = move_left g ∧ move_right g' = move_right g ∧
    stats g' = foldl tally (stats g) (outcome_of g <$> l) ∧
    balls g' =
      filter (λ b, ball_id b ∉ ball_id <$> l ∨ outcome_of g b = Falling)
             (balls g).
Proof.
  revert g. induction l as [|b l IH]; intros g Hwf Hnd Hsub.
  { exists g. split_and!; try done. simpl.
    symmetry. apply filter_keeps_all. intros x _. left. apply not_elem_of_nil. }
  rewrite fmap_cons in Hnd. apply NoDup_cons in Hnd as [Hbl Hnd].
  assert (b ∈ balls g) as Hb by (apply Hsub; left).
  destruct (update_ball_live g b Hwf Hb)
    as (g1&Hstep&Hwf1&Hp1&Hx1&Hl1&Hr1&Hfr&Hst1&Hbs1).
  assert (∀ x, x ∈ balls g → ball_id x ≠ ball_id b →
            outcome_of g1 x = outcome_of g x) as Hsame.
  { intros x Hx Hid. apply outcome_of_ext; [done| |].
    - apply Hfr; [done|]. by apply live_below_next.
    - apply Hfr; [|by apply paddle_below_next].
      intros Heq. by apply (wf_balls g Hwf b Hb). }
  assert (∀ x, x ∈ l → ball_id x ≠ ball_id b) as Hdiff.
  { intros x Hx Hid. apply Hbl. rewrite <- Hid. by apply list_elem_of_fmap_2. }
  destruct (IH g1 Hwf1 Hnd) as (g'&Hrun&Hwf'&Hp&Hx&Hl&Hr&Hst&Hbs).
  { intros x Hxl. rewrite Hbs1. apply list_elem_of_filter. split.
    - left. by apply Hdiff.
    - apply Hsub. by right. }
  exists g'. simpl. rewrite Hstep. simpl.
  split; [done|]. split; [done|].
  split_and!; try congruence.
  - rewrite Hst, Hst1. f_equal. apply Forall_fmap_ext_1, Forall_forall.
    intros x Hxl. apply Hsame; [apply Hsub; by right|by apply Hdiff].
  - rewrite Hbs, Hbs1, list_filter_filter. apply filter_ext_on.
    intros x Hxg. rewrite elem_of_cons.
    destruct (decide (ball_id x = ball_id b)) as [Hid|Hid].
    + assert (x = b) as ->.
      { apply (same_id_same_ball (balls g)); [by apply wf_nodup|done..]. }
      split; [intros [_ [?|?]]; [done|by right]|].
      intros [Hn|Ho]; [exfalso; apply Hn; by left|].
      split; [by left|by right].
    + rewrite (Hsame x Hxg Hid). split.
      * intros [[Hn|Ho] _]; [left|by right]. by intros [?|?].
      * intros [Hn|Ho]; (split; [|by left]); [left|by right].
        intros ?. apply Hn. by right.
Qed.

(** ** The paddle *)

Lemma move_paddle_slides g :
  move_paddle g =
    if negb (paddle_dx g =? 0)%Z then
      let g1 := slide (inject_Z (paddle_dx g)) g in
      let left := paddle_x g1 - PADDLE_WIDTH / 2 in
      let right := paddle_x g1 + PADDLE_WIDTH / 2 in
      let g2 := if Qlt_b left 0 then slide (- left) g1 else g1 in
      if Qlt_b WIDTH right then slide (WIDTH - right) g2 else g2
    else g.
Proof.
  unfold move_paddle, paddle_dx.
  destruct (move_left g), (move_right g); reflexivity.
Qed.

Lemma wf_slide d g : wf g → wf (slide d g).
Proof.
  intros [H1 (x1&y1&x2&y2&Hp&Hx1&Hx2) H3 H4].
  split; simpl; [by apply canvas_ok_move| |intros b Hb|done].
  - rewrite lookup_alter_eq, Hp. simpl.
    exists (x1 + d), (y1 + 0), (x2 + d), (y2 + 0). split; [done|]. split; lra.
  - destruct (H3 b Hb) as [Hr Hne]. split; [|done].
    by rewrite lookup_alter_ne.
Qed.

Lemma wf_move_paddle g : wf g → wf (move_paddle g).
Proof.
  intros Hwf. rewrite move_paddle_slides.
  destruct (negb _); [|done]. cbv zeta.
  repeat (destruct (Qlt_b _ _)); auto using wf_slide.
Qed.

Lemma move_paddle_keeps g :
  balls (move_paddle g) = balls g ∧ score (move_paddle g) = score g ∧
  lives (move_paddle g) = lives g ∧ game_over (move_paddle g) = game_over g ∧
  paddle (move_paddle g) = paddle g ∧
  move_left (move_paddle g) = move_left g ∧
  move_right (move_paddle g) = move_right g.
Proof.
  rewrite move_paddle_slides.
  destruct (negb _); [|done]. cbv zeta.
  repeat (destruct (Qlt_b _ _)); done.
Qed.

(** The paddle ends at the point of [[PADDLE_WIDTH/2, WIDTH - PADDLE_WIDTH/2]]
    nearest to where the step alone would put it. *)
Lemma move_paddle_clamps g :
  PADDLE_WIDTH / 2 <= paddle_x g <= WIDTH - PADDLE_WIDTH / 2 →
  let target := paddle_x g + inject_Z (paddle_dx g) in
  let x' := paddle_x (move_paddle g) in
  PADDLE_WIDTH / 2 <= x' <= WIDTH - PADDLE_WIDTH / 2 ∧
  (target < PADDLE_WIDTH / 2 → x' == PADDLE_WIDTH / 2) ∧
  (WIDTH - PADDLE_WIDTH / 2 < target → x' == WIDTH - PADDLE_WIDTH / 2) ∧
  (PADDLE_WIDTH / 2 <= target <= WIDTH - PADDLE_WIDTH / 2 → x' == target).
Proof.
  intros Hin. rewrite move_paddle_slides. unfold paddle_dx in *.
  unfold PADDLE_WIDTH, WIDTH in *.
  destruct (move_left g), (move_right g); cbn -[Qlt_b Qplus Qminus Qdiv Qopp Qle Qlt];
    qcases; cbn -[Qplus Qminus Qdiv Qopp Qle Qlt] in *;
    unfold inject_Z in *; lra.
Qed.

(** ** A whole tick *)

Lemma update_live g :
  wf g → game_over g = false →
  ∃ g', update g = Some g' ∧ wf g' ∧
    paddle_x g' = paddle_x (move_paddle g) ∧ paddle g' = paddle g ∧
    move_left g' = move_left g ∧ move_right g' = move_right g ∧
    stats g' = foldl tally (stats g) (outcome_of (move_paddle g) <$> balls g) ∧
    balls g' = filter (λ b, outcome_of (move_paddle g) b = Falling) (balls g).
Proof.
  intros Hwf Hgo. unfold update. rewrite Hgo.
  destruct (move_paddle_keeps g) as (Hb&Hs&Hl&Ho&Hp&Hml&Hmr).
  pose proof (wf_move_paddle g Hwf) as Hwf1.
  destruct (for_balls_live (balls (move_paddle g)) (move_paddle g) Hwf1)
    as (g'&Hrun&Hwf'&Hp'&Hx'&Hl'&Hr'&Hst&Hbs).
  { by apply wf_nodup. }
  { done. }
  exists g'. split_and!; try congruence.
  - rewrite Hst, Hb. unfold stats. by rewrite Hs, Hl, Ho.
  - rewrite Hbs, Hb. apply filter_ext_on. intros b Hin. split; [|by right].
    intros [Hn|?]; [|done]. exfalso. apply Hn. by apply list_elem_of_fmap_2.
Qed.

Lemma update_total g : wf g → ∃ g', update g = Some g' ∧ wf g'.
Proof.
  intros Hwf. destruct (game_over g) eqn:Hgo.
  - exists g. unfold update. by rewrite Hgo.
  - destruct (update_live g Hwf Hgo) as (g'&?&?&_). eauto.
Qed.

(** ** Counting outcomes *)

Lemma count_of_cons o x os :
  count_of o (x :: os) = ((if decide (x = o) then 1 else 0) + count_of o os)%Z.
Proof.
  unfold count_of. rewrite filter_cons. case_decide; simpl; lia.
Qed.

Lemma count_of_nonneg o os : (0 <= count_of o os)%Z.
Proof. unfold count_of. lia. Qed.

Lemma count_of_perm o os os' : os ≡ₚ os' → count_of o os = count_of o os'.
Proof. intros H. unfold count_of. by rewrite H. Qed.

Lemma stats_eq (a a' b b' : Z) (c c' : bool) :
  a = a' → b = b' → c = c' → (a, b, c) = (a', b', c').
Proof. by intros -> -> ->. Qed.

Lemma foldl_tally sc lv go os :
  foldl tally (sc, lv, go) os =
    ((sc + count_of Caught os)%Z, (lv - count_of Missed os)%Z,
     go || ((0 <? count_of Missed os)%Z
            && (lv - count_of Missed os <=? 0)%Z)).
Proof.
  revert sc lv go. induction os as [|o os IH]; intros sc lv go.
  { simpl. unfold count_of. simpl.
    apply stats_eq; [lia..|by rewrite orb_false_r]. }
  pose proof (count_of_nonneg Missed os) as Hm.
  rewrite !count_of_cons. destruct o; cbn [foldl tally]; rewrite IH;
    repeat case_decide; try done; apply stats_eq; try lia; try done.
  destruct go; [done|]. cbn [orb].
  destruct (0 <? count_of Missed os)%Z eqn:E0;
  destruct (lv - 1 <=? 0)%Z eqn:E1;
  destruct (lv - 1 - count_of Missed os <=? 0)%Z eqn:E2;
  destruct (0 <? 1 + count_of Missed os)%Z eqn:E3;
  destruct (lv - (1 + count_of Missed os) <=? 0)%Z eqn:E4;
  try reflexivity; exfalso; lia.
Qed.

Lemma foldl_tally_perm s os os' :
  os ≡ₚ os' → foldl tally s os = foldl tally s os'.
Proof.
  intros H. destruct s as [[sc lv] go]. rewrite !foldl_tally.
  by rewrite (count_of_perm Caught _ _ H), (count_of_perm Missed _ _ H).
Qed.

(** ** Every callback keeps the game well formed *)

Lemma wf_set_move dir g : wf g → wf (set_move dir g).
Proof.
  intros Hwf. unfold set_move.
  repeat (destruct (_ =? _)%Z); by apply (wf_change g).
Qed.

Lemma wf_spawn_ball x g : wf g → wf (spawn_ball x g).
Proof.
  intros Hwf. unfold spawn_ball. destruct (game_over g); [done|].
  pose proof (paddle_below_next g Hwf) as Hpn.
  destruct Hwf as [H1 (x1&y1&x2&y2&Hp&Hx1&Hx2) H3 H4].
  split; cbn [canvas paddle paddle_x balls with_canvas with_balls Ball_new
              Tk.create fst snd].
  - by apply (canvas_ok_create _ (canvas g)).
  - cbn [Tk.items]. rewrite lookup_insert_ne by lia. eauto 10.
  - intros b [Hb|Hb]%elem_of_app.
    + destruct (H3 b Hb) as [Hr Hne]. split; [|done].
      assert (ball_id b < Tk.next_id (canvas g))%nat
        by (by apply H1, rect_is_Some).
      cbn [Tk.items]. by rewrite lookup_insert_ne by lia.
    + apply list_elem_of_singleton in Hb as ->. cbn [ball_id Tk.items].
      rewrite lookup_insert_eq. split; [repeat eexists|lia].
  - rewrite fmap_app. apply NoDup_app. split; [done|]. split.
    + intros i (b&->&Hb)%list_elem_of_fmap Hi.
      apply list_elem_of_singleton in Hi.
      assert (ball_id b < Tk.next_id (canvas g))%nat
        by (apply H1, rect_is_Some; by apply H3).
      simpl in Hi. lia.
    + apply NoDup_singleton.
Qed.

Lemma wf_reset c ml mr : canvas_ok c → wf (reset c ml mr).
Proof.
  intros Hc. unfold reset.
  split; cbn [canvas paddle paddle_x balls Tk.create Tk.items Tk.next_id].
  - intros i. cbn [Tk.items Tk.next_id].
    rewrite !lookup_insert_is_Some.
    intros [<-|[_ [<-|[_ [<-|[_ Hi]]]]]]; try lia. apply Hc in Hi. lia.
  - rewrite !lookup_insert_ne by lia. rewrite lookup_insert_eq.
    do 4 eexists. split; [done|]. split; reflexivity.
  - intros b Hb. by apply elem_of_nil in Hb.
  - apply NoDup_nil_2.
Qed.

Lemma canvas_ok_empty n : canvas_ok (Tk.mkCanvas ∅ n).
Proof. intros i [x Hx]. simpl in Hx. by rewrite lookup_empty in Hx. Qed.

Lemma Game_init_wf : ∃ g, Game_init = Some g ∧ wf g.
Proof. apply update_total, wf_reset, canvas_ok_empty. Qed.

Lemma restart_wf g : ∃ g', restart g = Some g' ∧ wf g'.
Proof. apply update_total, wf_reset, canvas_ok_empty. Qed.

Lemma fire_total e g : wf g → ∃ g', fire e g = Some g' ∧ wf g'.
Proof.
  intros Hwf. destruct e; simpl.
  - by apply update_total.
  - eauto using wf_spawn_ball.
  - eauto using wf_set_move.
  - apply restart_wf.
Qed.

Lemma run_total es g : wf g → ∃ g', run es g = Some g' ∧ wf g'.
Proof.
  revert g. induction es as [|e es IH]; intros g Hwf; [by exists g|].
  destruct (fire_total e g Hwf) as (g1&He&Hwf1).
  destruct (IH g1 Hwf1) as (g'&Hr&Hwf'). exists g'. simpl. by rewrite He.
Qed.

Lemma reachable_wf g : reachable g → wf g.
Proof.
  intros (g0&es&Hi&_&Hr).
  destruct Game_init_wf as (g0'&Hi'&Hwf0).
  assert (g0' = g0) as -> by congruence.
  destruct (run_total es g0 Hwf0) as (g'&Hr'&Hwf'). congruence.
Qed.

(** * The claims *)

(** ** C1 *)

(** C1: after the ball has advanced by the fall speed, the loop body
    treats it as Caught exactly when its bottom edge (centre y plus
    radius) has reached the paddle's top edge [HEIGHT - 30 - PADDLE_HEIGHT]
    and its centre x lies in the closed span of the paddle; the catch test
    comes first; a ball that is not caught is Missed exactly when its top
    edge (centre y minus radius) is strictly greater than [HEIGHT], and is
    left Falling otherwise, in the live list and untouched apart from its
    advance.  A caught ball adds one to the score, a missed ball takes one
    life, and both leave the live list. *)
Theorem update_ball_classifies g ball x y px1 py1 px2 py2 bs :
  Ball_pos ball (advanced ball g) = Some (x, y) →
  Tk.coords (paddle g) (advanced ball g) = [px1; py1; px2; py2] →
  list_remove ball (balls g) = Some bs →
  let o := classify x y (ball_r ball) px1 px2 (HEIGHT - 30 - PADDLE_HEIGHT) HEIGHT in
  let caught :=
    HEIGHT - 30 - PADDLE_HEIGHT <= y + ball_r ball ∧ px1 <= x ∧ x <= px2 in
  ∃ g', update_ball ball g = Some g' ∧
    g' = settle o ball bs (with_canvas (advanced ball g) g) ∧
    (o = Caught ↔ caught) ∧
    (o = Missed ↔ ¬ caught ∧ HEIGHT < y - ball_r ball) ∧
    (o = Falling ↔ ¬ caught ∧ y - ball_r ball <= HEIGHT) ∧
    (score g' = (score g + 1)%Z ↔ o = Caught) ∧
    (lives g' = (lives g - 1)%Z ↔ o = Missed) ∧
    (o ≠ Falling → balls g' = bs) ∧
    (o = Falling → balls g' = balls g).
Proof.
  intros Hpos Hpad Hrm o caught.
  eexists. split; [by apply (update_ball_settle g ball x y px1 py1 px2 py2 bs)|].
  fold floorY in o. fold o.
  split; [done|].
  split; [apply classify_Caught|].
  split; [apply classify_Missed|].
  split; [apply classify_Falling|].
  destruct o; cbn [settle].
  - simpl. split_and!; try done; split; try done; lia.
  - destruct (_ <=? _)%Z; simpl; split_and!; try done; split; try done; lia.
  - simpl. split_and!; try done; split; try done; lia.
Qed.

Lemma update_ball_classifies_witness :
  let g := state_after above_paddle in
  let b := mkBall 4 BALL_RADIUS in
  Ball_pos b (advanced b g) = Some (500 # 2, 696 # 2) ∧
  Tk.coords (paddle g) (advanced b g) = [800 # 4; 358; 1200 # 4; 370] ∧
  list_remove b (balls g) = Some [] ∧
  ∃ g', update_ball b g = Some g' ∧ score g' = 1%Z ∧ balls g' = [].
Proof.
  intros g b.
  assert (Ball_pos b (advanced b g) = Some (500 # 2, 696 # 2)) as Hpos
    by (vm_compute; reflexivity).
  assert (Tk.coords (paddle g) (advanced b g) = [800 # 4; 358; 1200 # 4; 370])
    as Hpad by (vm_compute; reflexivity).
  assert (list_remove b (balls g) = Some []) as Hrm by (vm_compute; reflexivity).
  assert (score g = 0%Z) as Hs0 by (vm_compute; reflexivity).
  split; [exact Hpos|]. split; [exact Hpad|]. split; [exact Hrm|].
  destruct (update_ball_classifies g b _ _ _ _ _ _ _ Hpos Hpad Hrm)
    as (g'&Hg'&_&_&_&_&Hs&_&Hb&_).
  assert (classify (500 # 2) (696 # 2) (ball_r b) (800 # 4) (1200 # 4)
            (HEIGHT - 30 - PADDLE_HEIGHT) HEIGHT = Caught) as Ho
    by (vm_compute; reflexivity).
  exists g'. split; [exact Hg'|]. split.
  - apply Hs in Ho. rewrite Ho, Hs0. reflexivity.
  - apply Hb. rewrite Ho. discriminate.
Defined.

(** ** C5 *)

Lemma update_ball_mono b g g' :
  update_ball b g = Some g' →
  (score g <= score g')%Z ∧ (lives g' <= lives g)%Z.
Proof.
  unfold update_ball, past_bottom. intros H.
  repeat (case_match; simplify_option_eq); simpl; lia.
Qed.

Lemma set_move_keeps dir g :
  score (set_move dir g) = score g ∧ lives (set_move dir g) = lives g ∧
  balls (set_move dir g) = balls g ∧ canvas (set_move dir g) = canvas g ∧
  game_over (set_move dir g) = game_over g.
Proof. unfold set_move. by repeat (destruct (_ =? _)%Z). Qed.

(** C5: once the game is over, [update] returns the game as it is (score,
    lives and live balls included) and [spawn_ball] adds no ball; so over
    any run of ticks, spawns and key events that has no restart in it,
    score, lives, the live balls and the canvas stay as they were and the
    game stays over. *)
Theorem game_over_is_terminal g :
  game_over g = true →
  update g = Some g ∧
  (∀ x, spawn_ball x g = g) ∧
  ∀ es, Forall (λ e, e ≠ Restart) es →
    ∃ g', run es g = Some g' ∧ score g' = score g ∧ lives g' = lives g ∧
          balls g' = balls g ∧ canvas g' = canvas g ∧ game_over g' = true.
Proof.
  intros Hgo.
  assert (∀ h, game_over h = true → update h = Some h) as Hup.
  { intros h Hh. unfold update. by rewrite Hh. }
  assert (∀ h x, game_over h = true → spawn_ball x h = h) as Hsp.
  { intros h x Hh. unfold spawn_ball. by rewrite Hh. }
  split; [by apply Hup|]. split; [intros x; by apply Hsp|].
  intros es. revert g Hgo. induction es as [|e es IH]; intros g Hgo Hes.
  { by exists g. }
  apply Forall_cons in Hes as [He Hes].
  destruct e; try done; simpl.
  - rewrite (Hup g Hgo). simpl. by apply IH.
  - rewrite (Hsp g x Hgo). by apply IH.
  - destruct (set_move_keeps dir g) as (Hs&Hl&Hb&Hc&Ho).
    destruct (IH (set_move dir g)) as (g'&Hr&?&?&?&?&?); [congruence|done|].
    exists g'. split_and!; congruence.
Qed.

Lemma game_over_is_terminal_witness :
  let g := state_after three_misses in
  game_over g = true ∧ update g = Some g ∧ spawn_ball 250 g = g ∧
  ∃ g', run [Tick; Spawn 250; Key 1; Tick] g = Some g' ∧
        score g' = score g ∧ lives g' = lives g ∧ balls g' = balls g.
Proof.
  intros g.
  assert (game_over g = true) as Hgo by (vm_compute; reflexivity).
  destruct (game_over_is_terminal g Hgo) as (Hu&Hs&Hr).
  split; [exact Hgo|]. split; [exact Hu|]. split; [apply Hs|].
  destruct (Hr [Tick; Spawn 250; Key 1; Tick]) as (g'&H1&H2&H3&H4&_).
  { repeat constructor; discriminate. }
  exists g'. exact (conj H1 (conj H2 (conj H3 H4))).
Defined.

(** ** C6 *)

Lemma update_no_balls g :
  game_over g = false → balls g = [] → update g = Some (move_paddle g).
Proof.
  intros Hgo Hb. unfold update. rewrite Hgo.
  destruct (move_paddle_keeps g) as (Hb'&_). by rewrite Hb', Hb.
Qed.

Lemma move_paddle_lookup g i :
  i ≠ paddle g →
  Tk.items (canvas (move_paddle g)) !! i = Tk.items (canvas g) !! i.
Proof.
  intros Hi. rewrite move_paddle_slides.
  destruct (negb _); [|done]. cbv zeta.
  repeat (destruct (Qlt_b _ _)); simpl; by rewrite !lookup_alter_ne.
Qed.

(** C6: whatever the game was, [restart] returns a game with score 0,
    three lives, no live ball and the game-over flag down; every item the
    canvas held before (the ovals of the earlier balls among them) is
    gone.  The reset is one callback, so no state in between is seen by
    another. *)
Theorem restart_resets g :
  ∃ g', restart g = Some g' ∧
    score g' = 0%Z ∧ lives g' = 3%Z ∧ balls g' = [] ∧ game_over g' = false ∧
    ∀ i, (i < Tk.next_id (canvas g))%nat → Tk.items (canvas g') !! i = None.
Proof.
  unfold restart.
  set (g0 := reset (Tk.delete_all (canvas g)) (move_left g) (move_right g)).
  exists (move_paddle g0).
  split; [by apply update_no_balls|].
  destruct (move_paddle_keeps g0) as (Hb&Hs&Hl&Ho&_).
  split_and!; try done.
  intros i Hi. rewrite move_paddle_lookup by (simpl; lia).
  simpl. rewrite !lookup_insert_ne by lia. apply lookup_empty.
Qed.

(** ** C7 *)

(** C7: when the paddle's centre is within
    [[PADDLE_WIDTH/2, WIDTH - PADDLE_WIDTH/2]] before a tick, it is within
    it after the paddle block, for each of the three intents; the block
    puts the centre where the step alone would put it when that is inside
    the range, and on the bound that was crossed otherwise, which is the
    least correction.  The tick ends with that centre, and with the
    paddle's rectangle between 0 and [WIDTH]. *)
Theorem paddle_stays_inside g :
  wf g →
  PADDLE_WIDTH / 2 <= paddle_x g <= WIDTH - PADDLE_WIDTH / 2 →
  let target := paddle_x g + inject_Z (paddle_dx g) in
  let x' := paddle_x (move_paddle g) in
  PADDLE_WIDTH / 2 <= x' <= WIDTH - PADDLE_WIDTH / 2 ∧
  (target < PADDLE_WIDTH / 2 → x' == PADDLE_WIDTH / 2) ∧
  (WIDTH - PADDLE_WIDTH / 2 < target → x' == WIDTH - PADDLE_WIDTH / 2) ∧
  (PADDLE_WIDTH / 2 <= target <= WIDTH - PADDLE_WIDTH / 2 → x' == target) ∧
  ∃ g', update g = Some g' ∧
    (game_over g = false → paddle_x g' = x') ∧
    PADDLE_WIDTH / 2 <= paddle_x g' <= WIDTH - PADDLE_WIDTH / 2 ∧
    ∃ x1 y1 x2 y2,
      Tk.coords (paddle g') (canvas g') = [x1; y1; x2; y2] ∧
      0 <= x1 ∧ x2 <= WIDTH.
Proof.
  intros Hwf Hin target x'.
  destruct (move_paddle_clamps g Hin) as (Hb&H1&H2&H3).
  split; [done|]. split; [done|]. split; [done|]. split; [done|].
  assert (∃ g', update g = Some g' ∧ wf g' ∧
            (game_over g = false → paddle_x g' = x') ∧
            PADDLE_WIDTH / 2 <= paddle_x g' <= WIDTH - PADDLE_WIDTH / 2)
    as (g'&Hup&Hwf'&Hx&Hin').
  { destruct (game_over g) eqn:Hgo.
    - exists g. unfold update. rewrite Hgo. done.
    - destruct (update_live g Hwf Hgo) as (g'&Hup&Hwf'&Hx&_).
      exists g'. split; [done|]. split; [done|]. split; [done|].
      rewrite Hx. exact Hb. }
  exists g'. split; [done|]. split; [done|]. split; [done|].
  destruct (wf_paddle g' Hwf') as (x1&y1&x2&y2&Hp&Hx1&Hx2).
  exists x1, y1, x2, y2. unfold Tk.coords. rewrite Hp.
  split; [done|]. unfold PADDLE_WIDTH, WIDTH in *. lra.
Qed.

(** ** C8 *)

Lemma for_balls_mono l g g' :
  for_balls l g = Some g' →
  (score g <= score g')%Z ∧ (lives g' <= lives g)%Z.
Proof.
  revert g. induction l as [|b l IH]; intros g H; simpl in H.
  { simplify_eq. lia. }
  destruct (update_ball b g) as [g1|] eqn:E; [|done]. simpl in H.
  apply update_ball_mono in E. apply IH in H. lia.
Qed.

(** C8: a tick never raises lives and never lowers the score; and a tick
    on a well-formed game does return. *)
Theorem tick_monotone g :
  (wf g → is_Some (update g)) ∧
  ∀ g', update g = Some g' →
        (lives g' <= lives g)%Z ∧ (score g <= score g')%Z.
Proof.
  split.
  - intros Hwf. destruct (update_total g Hwf) as (g'&->&_). eauto.
  - intros g'. unfold update. destruct (game_over g).
    + intros [= <-]. lia.
    + intros H. apply for_balls_mono in H.
      destruct (move_paddle_keeps g) as (_&Hs&Hl&_). lia.
Qed.

Lemma state_after_wf es : wf (state_after es).
Proof.
  unfold state_after, after.
  destruct Game_init_wf as (g0&->&Hwf0). simpl.
  by destruct (run_total es g0 Hwf0) as (g&->&Hwf).
Qed.

Lemma paddle_stays_inside_witness :
  let g := state_after at_left_wall in
  (PADDLE_WIDTH / 2 <= paddle_x g <= WIDTH - PADDLE_WIDTH / 2) ∧
  paddle_x g + inject_Z (paddle_dx g) < PADDLE_WIDTH / 2 ∧
  paddle_x (move_paddle g) == PADDLE_WIDTH / 2 ∧
  ∃ g', update g = Some g' ∧ paddle_x g' == PADDLE_WIDTH / 2.
Proof.
  intros g.
  assert (PADDLE_WIDTH / 2 <= paddle_x g <= WIDTH - PADDLE_WIDTH / 2) as Hin.
  { split; apply Qle_bool_iff; vm_compute; reflexivity. }
  assert (paddle_x g + inject_Z (paddle_dx g) < PADDLE_WIDTH / 2) as Hlt.
  { apply Qlt_b_true. vm_compute. reflexivity. }
  destruct (paddle_stays_inside g (state_after_wf _) Hin)
    as (_&Hl&_&_&g'&Hup&Hx&_).
  split; [exact Hin|]. split; [exact Hlt|]. split; [exact (Hl Hlt)|].
  exists g'. split; [exact Hup|]. rewrite Hx; [exact (Hl Hlt)|].
  vm_compute. reflexivity.
Defined.

Lemma tick_monotone_witness :
  let g := state_after above_paddle in
  ∃ g', update g = Some g' ∧
        (lives g' <= lives g)%Z ∧ (score g <= score g')%Z ∧ score g' = 1%Z.
Proof.
  intros g.
  destruct (tick_monotone g) as [Ht Hm].
  destruct (Ht (state_after_wf _)) as [g' Hg'].
  exists g'. split; [exact Hg'|].
  destruct (Hm g' Hg') as [Hl Hs]. split; [exact Hl|]. split; [exact Hs|].
  assert (score <$> update g = Some 1%Z) as H by (vm_compute; reflexivity).
  rewrite Hg' in H. injection H as H. exact H.
Defined.

(** ** C9 *)

Lemma set_move_exclusive dir g :
  move_left (set_move dir g) && move_right (set_move dir g) = false.
Proof. unfold set_move. by repeat (destruct (_ =? _)%Z). Qed.

Lemma press_exclusive dirs g :
  move_left g && move_right g = false →
  move_left (press dirs g) && move_right (press dirs g) = false.
Proof.
  revert g. induction dirs as [|d dirs IH]; intros g H; [done|].
  apply IH, set_move_exclusive.
Qed.

Lemma fire_exclusive e g g' :
  wf g → fire e g = Some g' →
  move_left g && move_right g = false →
  move_left g' && move_right g' = false.
Proof.
  intros Hwf He Hex. destruct e; simpl in He.
  - destruct (game_over g) eqn:Hgo.
    + unfold update in He. rewrite Hgo in He. by simplify_eq.
    + destruct (update_live g Hwf Hgo) as (g1&Hup&_&_&_&Hl&Hr&_).
      assert (g1 = g') as -> by congruence. by rewrite Hl, Hr.
  - simplify_eq. unfold spawn_ball. by destruct (game_over g).
  - simplify_eq. apply set_move_exclusive.
  - unfold restart in He.
    set (g0 := reset _ _ _) in He.
    assert (wf g0) as Hwf0 by apply wf_reset, canvas_ok_empty.
    destruct (update_live g0 Hwf0 eq_refl) as (g1&Hup&_&_&_&Hl&Hr&_).
    assert (g1 = g') as -> by congruence. by rewrite Hl, Hr.
Qed.

Lemma Game_init_start : Game_init = Some start.
Proof. reflexivity. Qed.

(** The claim C9 fails: no run of key events from the initial game sets
    both flags. *)
Lemma both_flags_never_set :
  ¬ ∃ g0 dirs,
      Game_init = Some g0 ∧
      Forall (λ dir, dir = (-1)%Z ∨ dir = 0%Z ∨ dir = 1%Z) dirs ∧
      move_left (press dirs g0) = true ∧ move_right (press dirs g0) = true.
Proof.
  intros (g0&dirs&Hi&_&Hl&Hr).
  rewrite Game_init_start in Hi. injection Hi as <-.
  pose proof (press_exclusive dirs start eq_refl) as H.
  rewrite Hl, Hr in H. done.
Qed.

(** C9, as the code has it: [set_move] writes both flags on every call and
    never sets the two together, so they are not both true after a call,
    whatever the direction and the game before it; and they are not both
    true in any game reached from the initial one by key events, ticks,
    spawns and restarts. *)
Theorem flags_exclusive :
  (∀ dir g, ¬ (move_left (set_move dir g) = true ∧
               move_right (set_move dir g) = true)) ∧
  (∀ g, reachable g → ¬ (move_left g = true ∧ move_right g = true)).
Proof.
  split.
  - intros dir g [Hl Hr]. pose proof (set_move_exclusive dir g) as H.
    by rewrite Hl, Hr in H.
  - intros g (g0&es&Hi&_&Hr) [Hml Hmr].
    rewrite Game_init_start in Hi. injection Hi as <-.
    assert (∀ es h h', wf h → run es h = Some h' →
              move_left h && move_right h = false →
              move_left h' && move_right h' = false) as Hrun.
    { clear. induction es as [|e es IH]; intros h h' Hwf Hr Hex; simpl in Hr.
      - by simplify_eq.
      - destruct (fire_total e h Hwf) as (h1&He&Hwf1).
        rewrite He in Hr. simpl in Hr.
        eapply IH; eauto using fire_exclusive. }
    assert (wf start) as Hwf by apply wf_reset, canvas_ok_empty.
    pose proof (Hrun es start g Hwf Hr eq_refl) as H.
    by rewrite Hml, Hmr in H.
Qed.

Lemma state_after_reachable es : Forall allowed es → reachable (state_after es).
Proof.
  intros Hes. exists start, es. split; [done|]. split; [done|].
  unfold state_after, after. rewrite Game_init_start. simpl.
  assert (wf start) as Hwf by apply wf_reset, canvas_ok_empty.
  by destruct (run_total es start Hwf) as (g&->&_).
Qed.

Lemma flags_exclusive_witness :
  let g := state_after [Key (-1); Tick; Key 1; Tick] in
  reachable g ∧ move_right g = true ∧
  ¬ (move_left g = true ∧ move_right g = true).
Proof.
  intros g.
  assert (reachable g) as Hr.
  { apply state_after_reachable. repeat constructor; simpl; tauto. }
  split; [exact Hr|]. split; [vm_compute; reflexivity|].
  destruct flags_exclusive as [_ H]. exact (H g Hr).
Defined.

(** ** C10 *)

Lemma count_of_split (f : Ball → Outcome) (l : list Ball) b o :
  NoDup (ball_id <$> l) → b ∈ l →
  count_of o (f <$> l) =
    ((if decide (f b = o) then 1 else 0) +
     count_of o (f <$> filter (λ b', ball_id b' ≠ ball_id b) l))%Z.
Proof.
  induction l as [|c l IH]; intros Hnd Hb; [by inversion Hb|].
  rewrite fmap_cons in Hnd. apply NoDup_cons in Hnd as [Hc Hnd].
  rewrite fmap_cons, count_of_cons.
  destruct (decide (ball_id c = ball_id b)) as [Hid|Hid].
  - assert (c = b) as ->.
    { apply (same_id_same_ball (c :: l)); [|left|done..].
      rewrite fmap_cons. by apply NoDup_cons. }
    rewrite filter_cons_False by tauto.
    rewrite filter_keeps_all; [done|].
    intros x Hx Hxb. apply Hc. rewrite <- Hxb. by apply list_elem_of_fmap_2.
  - apply elem_of_cons in Hb as [->|Hb]; [done|].
    rewrite filter_cons_True by done.
    rewrite fmap_cons, count_of_cons, IH by done. lia.
Qed.

(** C10: a ball is caught on any tick on which, after the paddle block and
    the ball's advance, its bottom edge is at or below the paddle's top
    edge and its centre x is within the paddle's span, however far below
    the paddle row it already is (nothing bounds [y] from above here): the
    tick takes it out of the live list and adds one to the score for it,
    on top of what the other balls of the tick add. *)
Theorem late_catch g b x y px1 py1 px2 py2 :
  wf g → game_over g = false → b ∈ balls g →
  let p := move_paddle g in
  let others := filter (λ b', ball_id b' ≠ ball_id b) (balls g) in
  Ball_pos b (advanced b p) = Some (x, y) →
  Tk.coords (paddle p) (advanced b p) = [px1; py1; px2; py2] →
  HEIGHT - 30 - PADDLE_HEIGHT <= y + ball_r b →
  px1 <= x <= px2 →
  outcome_of p b = Caught ∧
  ∃ g', update g = Some g' ∧ (b ∉ balls g') ∧
    score g' = (score g + 1 + count_of Caught (outcome_of p <$> others))%Z ∧
    lives g' = (lives g - count_of Missed (outcome_of p <$> others))%Z.
Proof.
  intros Hwf Hgo Hb p others Hpos Hpad Hy Hx.
  assert (outcome_of p b = Caught) as Ho.
  { unfold outcome_of. rewrite Hpos, Hpad. apply classify_Caught.
    unfold floorY. tauto. }
  split; [done|].
  destruct (update_live g Hwf Hgo) as (g'&Hup&_&_&_&_&_&Hst&Hbs).
  exists g'. split; [done|]. split.
  { rewrite Hbs. intros [Hf _]%list_elem_of_filter. fold p in Hf. congruence. }
  unfold stats in Hst. rewrite foldl_tally in Hst. fold p in Hst.
  injection Hst as Hs Hl _.
  rewrite Hs, Hl.
  rewrite (count_of_split _ _ b Caught (wf_nodup g Hwf) Hb).
  rewrite (count_of_split _ _ b Missed (wf_nodup g Hwf) Hb).
  rewrite Ho. fold others.
  rewrite decide_True by done. rewrite decide_False by done. lia.
Qed.

Lemma late_catch_witness :
  let g := state_after chase in
  let b := mkBall 4 BALL_RADIUS in
  game_over g = false ∧
  Tk.coords (ball_id b) (canvas g) = [368; 372; 392; 396] ∧
  ∃ g', update g = Some g' ∧ (b ∉ balls g') ∧ score g' = (score g + 1)%Z.
Proof.
  intros g b.
  assert (game_over g = false) as Hgo by (vm_compute; reflexivity).
  assert (balls g = [b]) as Hbs by (vm_compute; reflexivity).
  assert (b ∈ balls g) as Hb by (rewrite Hbs; constructor).
  assert (Ball_pos b (advanced b (move_paddle g)) = Some (760 # 2, 776 # 2))
    as Hpos by (vm_compute; reflexivity).
  assert (Tk.coords (paddle (move_paddle g)) (advanced b (move_paddle g)) =
          [1120 # 4; 358; 1520 # 4; 370]) as Hpad by (vm_compute; reflexivity).
  assert (HEIGHT - 30 - PADDLE_HEIGHT <= (776 # 2) + ball_r b) as Hy.
  { apply Qle_bool_iff. vm_compute. reflexivity. }
  assert (1120 # 4 <= 760 # 2 <= 1520 # 4) as Hx.
  { split; apply Qle_bool_iff; vm_compute; reflexivity. }
  assert (count_of Caught
            (outcome_of (move_paddle g) <$>
               filter (λ b', ball_id b' ≠ ball_id b) (balls g)) = 0%Z) as Hn
    by (vm_compute; reflexivity).
  split; [exact Hgo|]. split; [vm_compute; reflexivity|].
  destruct (late_catch g b _ _ _ _ _ _ (state_after_wf _) Hgo Hb Hpos Hpad Hy Hx)
    as (_&g'&Hup&Hout&Hs&_).
  exists g'. split; [exact Hup|]. split; [exact Hout|].
  rewrite Hs, Hn. apply Z.add_0_r.
Defined.

(** ** C4 *)

Lemma wf_permuted g l : wf g → balls g ≡ₚ l → wf (with_balls l g).
Proof.
  intros [H1 H2 H3 H4] Hp. split; simpl; try done.
  - intros b Hb. apply H3. by rewrite Hp.
  - by rewrite <- Hp.
Qed.

Lemma move_paddle_with_balls l g :
  move_paddle (with_balls l g) = with_balls l (move_paddle g).
Proof.
  rewrite !move_paddle_slides. unfold paddle_dx. simpl.
  destruct (negb _); [|done]. cbv zeta. simpl.
  repeat (destruct (Qlt_b _ _)); reflexivity.
Qed.

Lemma removed_filter (P : Ball → Prop) `{!∀ b, Decision (P b)} (l l' : list Ball) :
  l ≡ₚ l' →
  ∀ b, b ∈ l ∧ b ∉ filter P l ↔ b ∈ l' ∧ b ∉ filter P l'.
Proof.
  intros Hp b. rewrite !list_elem_of_filter, Hp. tauto.
Qed.

(** C4: a tick on a game and a tick on the same game with its live balls
    in another order end with the same score, lives and game-over flag,
    take the same balls out and leave the same balls live; and the loop
    itself, run over the balls in any order against the same paddle,
    gives the same score, lives, flag and live list. *)
Theorem tick_order_irrelevant g l :
  wf g → balls g ≡ₚ l →
  (∃ g1 g2, update g = Some g1 ∧ update (with_balls l g) = Some g2 ∧
     score g1 = score g2 ∧ lives g1 = lives g2 ∧
     game_over g1 = game_over g2 ∧ balls g1 ≡ₚ balls g2 ∧
     ∀ b, b ∈ balls g ∧ b ∉ balls g1 ↔ b ∈ l ∧ b ∉ balls g2) ∧
  (∃ h1 h2, for_balls (balls g) g = Some h1 ∧ for_balls l g = Some h2 ∧
     score h1 = score h2 ∧ lives h1 = lives h2 ∧
     game_over h1 = game_over h2 ∧ balls h1 = balls h2).
Proof.
  intros Hwf Hp. split.
  - destruct (game_over g) eqn:Hgo.
    + exists g, (with_balls l g). unfold update. simpl. rewrite Hgo.
      split_and!; try done. intros b. rewrite Hp. tauto.
    + pose proof (wf_permuted g l Hwf Hp) as Hwf2.
      destruct (update_live g Hwf Hgo) as (g1&Hup1&_&_&_&_&_&Hst1&Hbs1).
      destruct (update_live (with_balls l g) Hwf2 Hgo)
        as (g2&Hup2&_&_&_&_&_&Hst2&Hbs2).
      rewrite move_paddle_with_balls in Hst2, Hbs2.
      change (balls (with_balls l g)) with l in Hst2, Hbs2.
      change (stats (with_balls l g)) with (stats g) in Hst2.
      change (outcome_of (with_balls l (move_paddle g)))
        with (outcome_of (move_paddle g)) in Hst2, Hbs2.
      assert (stats g1 = stats g2) as Hst.
      { rewrite Hst1, Hst2. apply foldl_tally_perm. by rewrite Hp. }
      injection Hst as Hs Hl Ho.
      exists g1, g2. split_and!; try done.
      * rewrite Hbs1, Hbs2. by rewrite Hp.
      * rewrite Hbs1, Hbs2. by apply removed_filter.
  - destruct (for_balls_live (balls g) g Hwf (wf_nodup g Hwf))
      as (h1&Hr1&_&_&_&_&_&Hst1&Hbs1); [done|].
    destruct (for_balls_live l g Hwf)
      as (h2&Hr2&_&_&_&_&_&Hst2&Hbs2).
    { rewrite <- Hp. by apply wf_nodup. }
    { intros b. by rewrite Hp. }
    assert (stats h1 = stats h2) as Hst.
    { rewrite Hst1, Hst2. apply foldl_tally_perm. by rewrite Hp. }
    injection Hst as Hs Hl Ho.
    exists h1, h2. split_and!; try done.
    rewrite Hbs1, Hbs2. apply filter_ext_on. intros b _. by rewrite Hp.
Qed.

Lemma tick_order_irrelevant_witness :
  let g := state_after last_life in
  let a := mkBall 6 BALL_RADIUS in
  let b := mkBall 7 BALL_RADIUS in
  balls g = [a; b] ∧
  ∃ g1 g2, update g = Some g1 ∧ update (with_balls [b; a] g) = Some g2 ∧
    score g1 = score g2 ∧ lives g1 = lives g2 ∧
    game_over g1 = game_over g2 ∧ balls g1 ≡ₚ balls g2.
Proof.
  intros g a b.
  assert (balls g = [a; b]) as Hbs by (vm_compute; reflexivity).
  assert (balls g ≡ₚ [b; a]) as Hp by (rewrite Hbs; apply perm_swap).
  split; [exact Hbs|].
  destruct (tick_order_irrelevant g [b; a] (state_after_wf _) Hp)
    as [(g1&g2&H1&H2&H3&H4&H5&H6&_) _].
  exists g1, g2.
  exact (conj H1 (conj H2 (conj H3 (conj H4 (conj H5 H6))))).
Defined.

(** ** C2 and C3: the loop does not stop when the game ends *)

(** C2 fails on the code: from the initial game, [last_life] leads to a
    game with one life left and two live balls; on the next tick the first
    ball is missed, which ends the game, and the loop goes on to the
    second ball, catches it, adds one to the score and takes it out of
    the live list. *)
Theorem ball_caught_after_game_over :
  let g := state_after last_life in
  let a := mkBall 6 BALL_RADIUS in
  let b := mkBall 7 BALL_RADIUS in
  reachable g ∧ stats g = (0, 1, false)%Z ∧ balls g = [a; b] ∧
  outcome_of (move_paddle g) <$> balls g = [Missed; Caught] ∧
  stats <$> update_ball a (move_paddle g) = Some (0, 0, true)%Z ∧
  stats <$> (update_ball a (move_paddle g) ≫= update_ball b) =
    Some (1, 0, true)%Z ∧
  stats <$> update g = Some (1, 0, true)%Z ∧
  balls <$> update g = Some [].
Proof.
  intros g a b. split.
  { apply state_after_reachable. unfold last_life.
    repeat first [apply Forall_cons; split; [simpl; first [lia|exact I]|]
                 |apply Forall_nil_2]. }
  split_and!; vm_compute; reflexivity.
Qed.

(** C3 fails on the code: four balls spawned on the same tick and never
    caught are all missed on tick 107, and the game reached has lives
    at -1. *)
Theorem lives_below_zero :
  let g := state_after four_misses in
  reachable g ∧ lives <$> after four_misses = Some (-1)%Z ∧
  lives g = (-1)%Z ∧ game_over g = true.
Proof.
  intros g. split.
  { apply state_after_reachable. unfold four_misses.
    repeat first [apply Forall_cons; split; [simpl; first [lia|exact I]|]
                 |apply Forall_nil_2]. }
  split_and!; vm_compute; reflexivity.
Qed.

(** * Further properties of the code *)

(** ** Invariants along runs *)

(** A property of the initial game that every callback keeps on
    well-formed games holds in every reachable game. *)
Lemma run_invariant (I : Game → Prop) :
  I start →
  (∀ e g g', wf g → I g → allowed e → fire e g = Some g' → I g') →
  ∀ g, reachable g → I g.
Proof.
  intros H0 Hstep g (g0&es&Hi&Hes&Hr).
  rewrite Game_init_start in Hi. injection Hi as <-.
  assert (wf start) as Hwf by apply wf_reset, canvas_ok_empty.
  revert Hwf H0 Hr. generalize start.
  induction Hes as [|e es He Hes IH]; intros h Hwf Hh Hr; simpl in Hr.
  { by simplify_eq. }
  destruct (fire_total e h Hwf) as (h1&Hf&Hwf1).
  rewrite Hf in Hr. simpl in Hr. eauto.
Qed.

(** The pass of the loop body on a live ball, as one equation. *)
Lemma update_ball_eq g b :
  wf g → b ∈ balls g →
  update_ball b g =
    Some (settle (outcome_of g b) b
            (filter (λ b', ball_id b' ≠ ball_id b) (balls g))
            (with_canvas (advanced b g) g)).
Proof.
  intros Hwf Hb.
  destruct (wf_balls g Hwf b Hb) as [(a1&b1&a2&b2&Hc) Hne].
  destruct (wf_paddle g Hwf) as (x1&y1&x2&y2&Hp&_).
  pose proof (advanced_pos g b _ _ _ _ Hc) as Hpos.
  assert (Tk.coords (paddle g) (advanced b g) = [x1; y1; x2; y2]) as Hpad.
  { unfold Tk.coords. by rewrite advanced_other, Hp. }
  pose proof (list_remove_member _ b (wf_nodup g Hwf) Hb) as Hrm.
  rewrite (update_ball_settle g b _ _ _ _ _ _ _ Hpos Hpad Hrm).
  unfold outcome_of. by rewrite Hpos, Hpad.
Qed.

(** What the pass leaves of the ball's own oval, and that ids only grow. *)
Lemma update_ball_own g g' b :
  wf g → b ∈ balls g → update_ball b g = Some g' →
  (Tk.next_id (canvas g) ≤ Tk.next_id (canvas g'))%nat ∧
  Tk.items (canvas g') !! ball_id b =
    if decide (outcome_of g b = Falling)
    then Tk.shift 0 BALL_FALL_SPEED <$> Tk.items (canvas g) !! ball_id b
    else None.
Proof.
  intros Hwf Hb. rewrite (update_ball_eq g b Hwf Hb). intros [= <-].
  pose proof (live_below_next g b Hwf Hb) as Hlt.
  destruct (outcome_of g b); cbn [settle].
  - rewrite decide_False by done. simpl. split; [lia|].
    apply lookup_delete_eq.
  - rewrite decide_False by done.
    match goal with |- context [if ?c then _ else _] => destruct c end.
    + unfold end_game. cbn [canvas with_canvas with_game_over].
      split; [simpl; lia|].
      rewrite !lookup_create_old by (simpl; lia). simpl.
      apply lookup_delete_eq.
    + simpl. split; [lia|]. apply lookup_delete_eq.
  - rewrite decide_True by done. simpl. split; [lia|].
    apply lookup_alter_eq.
Qed.

(** What the pass on one ball leaves of the others. *)
Lemma update_ball_others g g1 b :
  wf g → b ∈ balls g → update_ball b g = Some g1 →
  wf g1 ∧
  (∀ i, i ≠ ball_id b → (i < Tk.next_id (canvas g))%nat →
        Tk.items (canvas g1) !! i = Tk.items (canvas g) !! i) ∧
  (∀ x, x ∈ balls g → ball_id x ≠ ball_id b →
        x ∈ balls g1 ∧ outcome_of g1 x = outcome_of g x).
Proof.
  intros Hwf Hb Hup.
  destruct (update_ball_live g b Hwf Hb)
    as (g1'&Hstep&Hwf1&Hp1&_&_&_&Hfr&_&Hbs1).
  assert (g1' = g1) as -> by congruence.
  split; [done|]. split; [done|].
  intros x Hx Hid. split.
  - rewrite Hbs1. apply list_elem_of_filter. split; [by left|done].
  - apply outcome_of_ext; [done| |].
    + apply Hfr; [done|]. by apply live_below_next.
    + apply Hfr; [|by apply paddle_below_next].
      intros Heq. by apply (wf_balls g Hwf b Hb).
Qed.

(** The canvas after the loop: the oval of a ball that keeps falling has
    moved down by the fall speed, the oval of a caught or missed ball is
    gone, and no other item that was there has changed. *)
Lemma for_balls_canvas l g g' :
  wf g → NoDup (ball_id <$> l) → (∀ b, b ∈ l → b ∈ balls g) →
  for_balls l g = Some g' →
  (Tk.next_id (canvas g) ≤ Tk.next_id (canvas g'))%nat ∧
  (∀ b, b ∈ l →
     Tk.items (canvas g') !! ball_id b =
       if decide (outcome_of g b = Falling)
       then Tk.shift 0 BALL_FALL_SPEED <$> Tk.items (canvas g) !! ball_id b
       else None) ∧
  (∀ i, i ∉ ball_id <$> l → (i < Tk.next_id (canvas g))%nat →
     Tk.items (canvas g') !! i = Tk.items (canvas g) !! i).
Proof.
  revert g. induction l as [|b l IH]; intros g Hwf Hnd Hsub Hrun.
  { simpl in Hrun. simplify_eq. split; [lia|]. split; [|done].
    intros b Hb. by apply elem_of_nil in Hb. }
  rewrite fmap_cons in Hnd. apply NoDup_cons in Hnd as [Hbl Hnd].
  assert (b ∈ balls g) as Hb by (apply Hsub; left).
  simpl in Hrun.
  destruct (update_ball b g) as [g1|] eqn:Hstep; [|done]. simpl in Hrun.
  destruct (update_ball_own g g1 b Hwf Hb Hstep) as [Hn1 Hown].
  destruct (update_ball_others g g1 b Hwf Hb Hstep) as (Hwf1&Hfr&Hoth).
  assert (∀ x, x ∈ l → ball_id x ≠ ball_id b) as Hdiff.
  { intros x Hx Hid. apply Hbl. rewrite <- Hid. by apply list_elem_of_fmap_2. }
  destruct (IH g1 Hwf1 Hnd) as (Hn&Hin&Hout); [|done|].
  { intros x Hx. apply Hoth; [apply Hsub; by right|by apply Hdiff]. }
  split; [lia|]. split.
  - intros x [->|Hx]%elem_of_cons.
    + rewrite Hout; [done|done|].
      pose proof (live_below_next g b Hwf Hb). lia.
    + assert (x ∈ balls g) as Hxg by (apply Hsub; by right).
      rewrite (Hin x Hx).
      destruct (Hoth x Hxg (Hdiff x Hx)) as [_ ->].
      rewrite Hfr; [done|by apply Hdiff|by apply live_below_next].
  - intros i Hi Hlt. rewrite fmap_cons in Hi.
    apply not_elem_of_cons in Hi as [Hib Hil].
    rewrite Hout; [|done|lia]. by apply Hfr.
Qed.

(** ** What a tick does to the canvas *)

Lemma update_canvas g g' :
  wf g → game_over g = false → update g = Some g' →
  (∀ b x1 y1 x2 y2,
     b ∈ balls g →
     Tk.items (canvas g) !! ball_id b = Some [x1; y1; x2; y2] →
     (b ∈ balls g' →
      Tk.items (canvas g') !! ball_id b =
        Some [x1 + 0; y1 + BALL_FALL_SPEED; x2 + 0; y2 + BALL_FALL_SPEED]) ∧
     (b ∉ balls g' → Tk.items (canvas g') !! ball_id b = None)) ∧
  Tk.items (canvas g') !! paddle g =
    Tk.items (canvas (move_paddle g)) !! paddle g.
Proof.
  intros Hwf Hgo Hup.
  destruct (update_live g Hwf Hgo) as (g''&Hup'&_&_&_&_&_&_&Hbs).
  assert (g'' = g') as -> by congruence. clear Hup'.
  unfold update in Hup. rewrite Hgo in Hup.
  destruct (move_paddle_keeps g) as (Hb&_&_&_&Hp&_).
  pose proof (wf_move_paddle g Hwf) as Hwfp.
  destruct (for_balls_canvas _ _ _ Hwfp (wf_nodup _ Hwfp) (λ b H, H) Hup)
    as (_&Hin&Hout).
  split.
  - intros b x1 y1 x2 y2 Hbg Hc.
    assert (ball_id b ≠ paddle g) as Hne by (by apply (wf_balls g Hwf)).
    assert (Tk.items (canvas (move_paddle g)) !! ball_id b =
            Some [x1; y1; x2; y2]) as Hc'.
    { by rewrite move_paddle_lookup. }
    rewrite Hb in Hin. specialize (Hin b Hbg). rewrite Hc' in Hin.
    rewrite Hbs, list_elem_of_filter.
    case_decide as Ho; rewrite Hin; split; try done.
    + intros Hn. exfalso. by apply Hn.
    + intros [? _]. done.
  - apply Hout.
    + rewrite Hb. intros (b&Hid&Hbg)%list_elem_of_fmap.
      destruct (wf_balls g Hwf b Hbg) as [_ Hne]. congruence.
    + rewrite <- Hp. by apply paddle_below_next.
Qed.

(** X6: on a tick of a game that is on, every ball that stays live has its
    oval moved down by exactly [BALL_FALL_SPEED] and not sideways, the oval
    of every ball that leaves the live list is deleted from the canvas,
    and the loop over the balls leaves the paddle's rectangle as the paddle
    block made it. *)
Theorem tick_moves_balls g g' :
  wf g → game_over g = false → update g = Some g' →
  (∀ b x1 y1 x2 y2,
     b ∈ balls g →
     Tk.items (canvas g) !! ball_id b = Some [x1; y1; x2; y2] →
     (b ∈ balls g' →
      Tk.items (canvas g') !! ball_id b =
        Some [x1 + 0; y1 + BALL_FALL_SPEED; x2 + 0; y2 + BALL_FALL_SPEED]) ∧
     (b ∉ balls g' → Tk.items (canvas g') !! ball_id b = None)) ∧
  (∀ b x y,
     b ∈ balls g → Ball_pos b (canvas g) = Some (x, y) →
     (b ∈ balls g' →
      ∃ x' y', Ball_pos b (canvas g') = Some (x', y') ∧
               x' == x ∧ y' == y + BALL_FALL_SPEED) ∧
     (b ∉ balls g' → Ball_pos b (canvas g') = None)) ∧
  Tk.items (canvas g') !! paddle g =
    Tk.items (canvas (move_paddle g)) !! paddle g.
Proof.
  intros Hwf Hgo Hup.
  destruct (update_canvas g g' Hwf Hgo Hup) as [Hmv Hpad].
  split; [exact Hmv|]. split; [|exact Hpad].
  intros b x y Hb Hpos.
  destruct (wf_balls g Hwf b Hb) as [(x1&y1&x2&y2&Hc) _].
  destruct (Hmv b x1 y1 x2 y2 Hb Hc) as [Hin Hout].
  unfold Ball_pos, Tk.coords in *. rewrite Hc in Hpos. simpl in Hpos.
  injection Hpos as <- <-. split.
  - intros Hb'. rewrite (Hin Hb'). simpl.
    do 2 eexists. split; [done|]. split; field.
  - intros Hb'. by rewrite (Hout Hb').
Qed.

(** ** Invariants of reachable games *)

Lemma restart_eq g :
  restart g =
    Some (move_paddle
            (reset (Tk.delete_all (canvas g)) (move_left g) (move_right g))).
Proof. unfold restart. by apply update_no_balls. Qed.

(** X1: every game reached from [__init__] by ticks, spawns, key events and
    restarts is well formed: canvas ids are below the next id, the
    paddle's rectangle is on the canvas with its left and right edges at
    [paddle_x -/+ PADDLE_WIDTH/2], and the live balls are distinct
    four-coordinate items of the canvas, none of them the paddle. *)
Theorem reachable_well_formed g : reachable g → wf g.
Proof.
  apply (run_invariant wf).
  - apply wf_reset, canvas_ok_empty.
  - intros e h h' Hwf _ _ Hf.
    destruct (fire_total e h Hwf) as (h''&Hf'&Hwf'). congruence.
Qed.

(** X2: on a reachable game no callback raises: [update], [spawn_ball],
    [set_move] and [restart] all return (no IndexError from [Ball.pos], no
    ValueError from unpacking the paddle's coordinates or from
    [self.balls.remove]), and so does every run of callbacks. *)
Theorem callbacks_never_raise g :
  reachable g →
  (∀ e, is_Some (fire e g)) ∧ (∀ es, is_Some (run es g)).
Proof.
  intros Hr. pose proof (reachable_wf g Hr) as Hwf. split.
  - intros e. destruct (fire_total e g Hwf) as (g'&->&_). eauto.
  - intros es. destruct (run_total es g Hwf) as (g'&->&_). eauto.
Qed.

Lemma reset_paddle_x c ml mr : paddle_x (reset c ml mr) = WIDTH / 2.
Proof. reflexivity. Qed.

Lemma reset_inside c ml mr :
  PADDLE_WIDTH / 2 <= paddle_x (reset c ml mr) <= WIDTH - PADDLE_WIDTH / 2.
Proof. rewrite reset_paddle_x. split; apply Qle_bool_iff; reflexivity. Qed.

(** X3: in every reachable game the paddle's centre is within
    [[PADDLE_WIDTH/2, WIDTH - PADDLE_WIDTH/2]] and its rectangle on the
    canvas lies between 0 and [WIDTH]. *)
Theorem paddle_always_inside g :
  reachable g →
  PADDLE_WIDTH / 2 <= paddle_x g <= WIDTH - PADDLE_WIDTH / 2 ∧
  ∃ x1 y1 x2 y2,
    Tk.coords (paddle g) (canvas g) = [x1; y1; x2; y2] ∧
    0 <= x1 ∧ x2 <= WIDTH ∧ x2 - x1 == PADDLE_WIDTH.
Proof.
  intros Hr.
  assert (PADDLE_WIDTH / 2 <= paddle_x g <= WIDTH - PADDLE_WIDTH / 2) as Hin.
  { revert g Hr. apply run_invariant.
    - apply reset_inside.
    - intros e h h' Hwf Hin _ Hf. destruct e; simpl in Hf.
      + destruct (game_over h) eqn:Hgo.
        * unfold update in Hf. rewrite Hgo in Hf. by simplify_eq.
        * destruct (update_live h Hwf Hgo) as (h''&Hup&_&Hx&_).
          assert (h'' = h') as -> by congruence. rewrite Hx.
          by apply move_paddle_clamps.
      + simplify_eq. unfold spawn_ball. by destruct (game_over h).
      + simplify_eq. unfold set_move. by repeat (destruct (_ =? _)%Z).
      + rewrite restart_eq in Hf. simplify_eq.
        apply move_paddle_clamps, reset_inside. }
  split; [done|].
  destruct (wf_paddle g (reachable_wf g Hr)) as (x1&y1&x2&y2&Hp&Hx1&Hx2).
  exists x1, y1, x2, y2. unfold Tk.coords. rewrite Hp.
  split; [done|]. unfold PADDLE_WIDTH, WIDTH in *.
  split; [lra|]. split; [lra|]. rewrite Hx1, Hx2. field.
Qed.

(** X4: in every reachable game the score is not negative, there are at
    most three lives, and the game is over exactly when lives are at or
    below zero; so while the game is on there are one to three lives. *)
Theorem phase_follows_lives g :
  reachable g →
  (0 <= score g)%Z ∧ (lives g <= 3)%Z ∧
  (game_over g = true ↔ (lives g <= 0)%Z) ∧
  (game_over g = false → (1 <= lives g <= 3)%Z).
Proof.
  intros Hr.
  assert (tally_ok g) as (Hs&Hl&Hgo).
  { revert g Hr. apply run_invariant.
    - unfold tally_ok, start, reset. simpl. split; [lia|]. split; [lia|].
      split; [done|lia].
    - intros e h h' Hwf (Hs&Hl&Hgl) _ Hf. destruct e; simpl in Hf.
      + destruct (game_over h) eqn:Hgo.
        * unfold update in Hf. rewrite Hgo in Hf. simplify_eq.
          unfold tally_ok. by rewrite Hgo.
        * destruct (update_live h Hwf Hgo) as (h''&Hup&_&_&_&_&_&Hst&_).
          assert (h'' = h') as -> by congruence.
          unfold stats in Hst. rewrite foldl_tally, Hgo in Hst.
          injection Hst as Hs' Hl' Hgo'.
          set (os := outcome_of (move_paddle h) <$> balls h) in *.
          pose proof (count_of_nonneg Caught os).
          pose proof (count_of_nonneg Missed os).
          assert (1 <= lives h)%Z.
          { destruct (decide (lives h <= 0)%Z) as [Hle|]; [|lia].
            apply Hgl in Hle. congruence. }
          unfold tally_ok. rewrite Hs', Hl', Hgo'. simpl.
          split; [lia|]. split; [lia|].
          rewrite andb_true_iff, Z.ltb_lt, Z.leb_le. lia.
      + simplify_eq. unfold spawn_ball, tally_ok.
        by destruct (game_over h) eqn:E; simpl; rewrite ?E.
      + simplify_eq. destruct (set_move_keeps dir h) as (E1&E2&_&_&E3).
        unfold tally_ok. by rewrite E1, E2, E3.
      + rewrite restart_eq in Hf. simplify_eq.
        destruct (move_paddle_keeps
                    (reset (Tk.delete_all (canvas h)) (move_left h) (move_right h)))
          as (_&E1&E2&E3&_).
        unfold tally_ok. rewrite E1, E2, E3. simpl.
        split; [lia|]. split; [lia|]. split; [done|lia]. }
  split; [done|]. split; [done|]. split; [done|].
  intros Hf. destruct (decide (lives g <= 0)%Z) as [Hle|]; [|lia].
  apply Hgo in Hle. congruence.
Qed.

Lemma spawn_ball_on x g :
  game_over g = false →
  spawn_ball x g =
    with_balls (balls g ++ [mkBall (Tk.next_id (canvas g)) BALL_RADIUS])
      (with_canvas
         (Tk.create [inject_Z x - BALL_RADIUS; - BALL_RADIUS - BALL_RADIUS;
                     inject_Z x + BALL_RADIUS; - BALL_RADIUS + BALL_RADIUS]
                    (canvas g)).2 g).
Proof. intros Hgo. unfold spawn_ball. by rewrite Hgo. Qed.

Lemma falling_top g b x1 y1 x2 y2 :
  wf g →
  Tk.items (canvas g) !! ball_id b = Some [x1; y1; x2; y2] →
  ball_id b ≠ paddle g →
  outcome_of g b = Falling →
  (y1 + BALL_FALL_SPEED + (y2 + BALL_FALL_SPEED)) / 2 - ball_r b <= HEIGHT.
Proof.
  intros Hwf Hc Hne Ho.
  destruct (wf_paddle g Hwf) as (px1&py1&px2&py2&Hp&_).
  unfold outcome_of in Ho.
  rewrite (advanced_pos g b _ _ _ _ Hc) in Ho.
  unfold Tk.coords in Ho. rewrite advanced_other, Hp in Ho by done.
  simpl in Ho. by apply classify_Falling in Ho as [_ Ho].
Qed.

Lemma live_balls_ok g : reachable g → ∀ b, b ∈ balls g → ball_ok g b.
Proof.
  revert g. apply (run_invariant (λ g, ∀ b, b ∈ balls g → ball_ok g b)).
  { intros b Hb. by apply elem_of_nil in Hb. }
  intros e h h' Hwf IH Hal Hf. destruct e; simpl in Hf.
  - destruct (game_over h) eqn:Hgo.
    { unfold update in Hf. rewrite Hgo in Hf. by simplify_eq. }
    intros b Hb'.
    destruct (update_live h Hwf Hgo) as (h''&Hup&_&_&_&_&_&_&Hbs).
    assert (h'' = h') as -> by congruence.
    pose proof Hb' as Hb. rewrite Hbs in Hb.
    apply list_elem_of_filter in Hb as [Ho Hb].
    destruct (IH b Hb) as (Hr&x1&y1&x2&y2&x&y&Hc&Hx1&Hy1&Hx2&Hy2&Hx&Hy&_).
    destruct (update_canvas h h' Hwf Hgo Hf) as [Hmv _].
    destruct (Hmv b x1 y1 x2 y2 Hb Hc) as [Hc' _].
    assert (ball_id b ≠ paddle h) as Hne by (by apply (wf_balls h Hwf)).
    assert ((y1 + BALL_FALL_SPEED + (y2 + BALL_FALL_SPEED)) / 2 - ball_r b
            <= HEIGHT) as Htop.
    { apply (falling_top (move_paddle h) b x1 y1 x2 y2);
        [by apply wf_move_paddle| | |done].
      - by rewrite move_paddle_lookup.
      - by destruct (move_paddle_keeps h) as (_&_&_&_&->&_). }
    assert ((y1 + BALL_FALL_SPEED + (y2 + BALL_FALL_SPEED)) / 2
            == y + BALL_FALL_SPEED) as Hmid by (rewrite Hy1, Hy2; field).
    rewrite Hmid, Hr in Htop.
    split; [done|].
    exists (x1 + 0), (y1 + BALL_FALL_SPEED), (x2 + 0), (y2 + BALL_FALL_SPEED),
           x, (y + BALL_FALL_SPEED).
    split; [by apply Hc'|].
    unfold BALL_RADIUS, BALL_FALL_SPEED, WIDTH, HEIGHT in *.
    split; [lra|]. split; [lra|]. split; [lra|]. split; [lra|].
    split; [lra|]. split; lra.
  - simplify_eq. destruct (game_over h) eqn:Hgo.
    { unfold spawn_ball. by rewrite Hgo. }
    rewrite (spawn_ball_on _ _ Hgo). intros b [Hb|Hb]%elem_of_app.
    + destruct (IH b Hb) as (Hr&x1&y1&x2&y2&x0&y0&Hc&Hrest).
      split; [done|]. exists x1, y1, x2, y2, x0, y0. split; [|done].
      cbn [canvas with_canvas with_balls].
      rewrite lookup_create_old; [done|by apply live_below_next].
    + apply list_elem_of_singleton in Hb as ->. split; [done|].
      do 4 eexists. exists (inject_Z x), (- BALL_RADIUS).
      split; [apply lookup_insert_eq|].
      simpl in Hal. destruct Hal as [Hlo Hhi].
      rewrite Zle_Qle in Hlo, Hhi.
      change (inject_Z 12) with 12 in Hlo. change (inject_Z 488) with 488 in Hhi.
      unfold BALL_RADIUS, WIDTH, HEIGHT.
      split; [lra|]. split; [lra|]. split; [lra|]. split; [lra|].
      split; [lra|]. split; lra.
  - simplify_eq. destruct (set_move_keeps dir h) as (_&_&Hb&Hc&_).
    intros b Hb'. rewrite Hb in Hb'. unfold ball_ok. rewrite Hc. by apply IH.
  - rewrite restart_eq in Hf. simplify_eq.
    destruct (move_paddle_keeps
                (reset (Tk.delete_all (canvas h)) (move_left h) (move_right h)))
      as (Hb&_).
    intros b Hb'. rewrite Hb in Hb'. by apply elem_of_nil in Hb'.
Qed.

(** X5: every live ball of a reachable game has radius [BALL_RADIUS] and an
    oval twice that wide and high on the canvas; its centre column is
    within [[BALL_RADIUS, WIDTH - BALL_RADIUS]] (it never leaves the play
    area sideways), its centre is not above the spawn row, and its top
    edge is at most [HEIGHT]: a ball wholly below the play area does not
    survive the tick that put it there. *)
Theorem live_balls_in_play g b :
  reachable g → b ∈ balls g →
  ball_ok g b ∧
  ∃ x1 y1 x2 y2 px py,
    Tk.coords (ball_id b) (canvas g) = [x1; y1; x2; y2] ∧
    0 <= x1 ∧ x2 <= WIDTH ∧ y1 <= HEIGHT ∧
    Ball_pos b (canvas g) = Some (px, py) ∧
    BALL_RADIUS <= px <= WIDTH - BALL_RADIUS ∧
    - BALL_RADIUS <= py <= HEIGHT + BALL_RADIUS.
Proof.
  intros Hr Hb. pose proof (live_balls_ok g Hr b Hb) as Hok.
  split; [exact Hok|].
  destruct Hok as (_&x1&y1&x2&y2&x&y&Hc&Hx1&Hy1&Hx2&Hy2&Hx&Hy&Htop).
  assert ((x1 + x2) / 2 == x) as Hpx by (rewrite Hx1, Hx2; field).
  assert ((y1 + y2) / 2 == y) as Hpy by (rewrite Hy1, Hy2; field).
  exists x1, y1, x2, y2, ((x1 + x2) / 2), ((y1 + y2) / 2).
  unfold Ball_pos, Tk.coords. rewrite Hc.
  unfold BALL_RADIUS, WIDTH, HEIGHT in *.
  split; [done|]. split; [lra|]. split; [lra|]. split; [lra|].
  split; [done|]. rewrite Hpx, Hpy. split; lra.
Qed.

(** ** The accounts of a tick *)

Lemma count_of_total os :
  (count_of Caught os + count_of Missed os + count_of Falling os)%Z =
  Z.of_nat (length os).
Proof.
  induction os as [|o os IH]; [done|].
  rewrite !count_of_cons. destruct o; repeat case_decide; try done;
    simpl length; lia.
Qed.

Lemma count_of_filter (f : Ball → Outcome) (l : list Ball) o :
  Z.of_nat (length (filter (λ b, f b = o) l)) = count_of o (f <$> l).
Proof.
  induction l as [|b l IH]; [done|].
  rewrite fmap_cons, count_of_cons, filter_cons.
  case_decide; simpl length; lia.
Qed.

(** X7: a tick of a well-formed game that is on settles every live ball
    exactly once: the score grows by the number of balls caught, lives
    drop by the number of balls missed, exactly the falling balls stay
    live, and so the balls before the tick are the score gained plus the
    lives lost plus the balls left.  The game is over after the tick
    exactly when a ball was missed and lives are then at or below zero. *)
Theorem tick_accounting g :
  wf g → game_over g = false →
  let os := outcome_of (move_paddle g) <$> balls g in
  ∃ g', update g = Some g' ∧
    score g' = (score g + count_of Caught os)%Z ∧
    lives g' = (lives g - count_of Missed os)%Z ∧
    balls g' = filter (λ b, outcome_of (move_paddle g) b = Falling) (balls g) ∧
    Z.of_nat (length (balls g)) =
      ((score g' - score g) + (lives g - lives g')
       + Z.of_nat (length (balls g')))%Z ∧
    (game_over g' = true ↔
       (0 < count_of Missed os)%Z ∧ (lives g' <= 0)%Z).
Proof.
  intros Hwf Hgo os.
  destruct (update_live g Hwf Hgo) as (g'&Hup&_&_&_&_&_&Hst&Hbs).
  exists g'. split; [done|].
  unfold stats in Hst. rewrite foldl_tally, Hgo in Hst. fold os in Hst.
  injection Hst as Hs Hl Ho.
  split; [done|]. split; [done|]. split; [done|]. split.
  - rewrite Hbs, count_of_filter. fold os.
    pose proof (count_of_total os) as Ht. unfold os at 4 in Ht.
    rewrite length_fmap in Ht. lia.
  - rewrite Ho. simpl. rewrite andb_true_iff, Z.ltb_lt, Z.leb_le. by rewrite Hl.
Qed.

(** ** class Ball *)


(** ** [spawn_ball], [restart] and [set_move] *)

(** X10: when the game is on, [spawn_ball] adds exactly one ball at the end
    of the live list: its oval is new to the canvas (not a live ball's,
    not the paddle's), it is centred on the drawn column with its bottom
    edge on the top of the play area, and the positions of the other
    balls, the paddle's rectangle, the score and the lives are as
    before. *)
Theorem spawn_adds_one_ball x g :
  wf g → game_over g = false →
  let g' := spawn_ball x g in
  ∃ b, balls g' = balls g ++ [b] ∧
    (ball_id b ∉ ball_id <$> balls g) ∧ ball_id b ≠ paddle g ∧
    (∃ x1 y1 x2 y2 px py,
       Tk.coords (ball_id b) (canvas g') = [x1; y1; x2; y2] ∧ y2 == 0 ∧
       Ball_pos b (canvas g') = Some (px, py) ∧
       px == inject_Z x ∧ py == - BALL_RADIUS) ∧
    (∀ b', b' ∈ balls g → Ball_pos b' (canvas g') = Ball_pos b' (canvas g)) ∧
    Tk.coords (paddle g') (canvas g') = Tk.coords (paddle g) (canvas g) ∧
    score g' = score g ∧ lives g' = lives g ∧ paddle_x g' = paddle_x g.
Proof.
  intros Hwf Hgo g'. unfold g'. rewrite (spawn_ball_on x g Hgo).
  eexists. split; [reflexivity|].
  cbn [ball_id balls canvas paddle score lives paddle_x with_balls with_canvas].
  pose proof (paddle_below_next g Hwf) as Hp.
  split_and!; try done.
  - intros (b&Hid&Hb)%list_elem_of_fmap.
    pose proof (live_below_next g b Hwf Hb). lia.
  - lia.
  - unfold Ball_pos, Tk.coords. cbn [ball_id Tk.create snd Tk.items].
    rewrite lookup_insert_eq. simpl.
    do 6 eexists. split; [done|]. split; [|split; [done|]].
    + unfold BALL_RADIUS. lra.
    + split; field.
  - intros b' Hb'. pose proof (live_below_next g b' Hwf Hb').
    unfold Ball_pos, Tk.coords. by rewrite lookup_create_old.
  - unfold Tk.coords. by rewrite lookup_create_old.
Qed.

(** X11: [restart] returns for every game, with a well-formed game; it does
    not touch the movement flags, so with an arrow key held the paddle is
    already one step off the middle when [restart] returns, and in the
    middle otherwise; and the canvas hands out ids above the earlier
    ones. *)
Theorem restart_keeps_keys g :
  ∃ g', restart g = Some g' ∧ wf g' ∧
    move_left g' = move_left g ∧ move_right g' = move_right g ∧
    paddle_x g' == WIDTH / 2 + inject_Z (paddle_dx g) ∧
    (Tk.next_id (canvas g) < Tk.next_id (canvas g'))%nat.
Proof.
  rewrite restart_eq.
  set (g0 := reset (Tk.delete_all (canvas g)) (move_left g) (move_right g)).
  exists (move_paddle g0). split; [done|].
  destruct (move_paddle_keeps g0) as (_&_&_&_&_&Hl&Hr).
  split; [apply wf_move_paddle, wf_reset, canvas_ok_empty|].
  split; [done|]. split; [done|]. split.
  - destruct (move_paddle_clamps g0 (reset_inside _ _ _)) as (_&_&_&Hmid).
    change (paddle_dx g0) with (paddle_dx g) in Hmid.
    change (paddle_x g0) with (WIDTH / 2) in Hmid.
    apply Hmid. unfold paddle_dx, PADDLE_WIDTH, WIDTH.
    destruct (move_left g), (move_right g);
      split; apply Qle_bool_iff; reflexivity.
  - rewrite move_paddle_slides. destruct (negb _); [|simpl; lia].
    cbv zeta. repeat (destruct (Qlt_b _ _)); simpl; lia.
Qed.

Lemma press_snoc dirs dir g :
  press (dirs ++ [dir]) g = set_move dir (press dirs g).
Proof. unfold press. by rewrite foldl_app. Qed.

(** X12: the last key event alone decides the movement: after any run of
    key events the flags are those of the last one (left for -1, right for
    1, none for anything else, a release of either key included), whatever
    was pressed before, and the next tick steps the paddle by that. *)
Theorem last_key_wins dirs dir g :
  let g' := press (dirs ++ [dir]) g in
  move_left g' = (dir =? -1)%Z ∧
  move_right g' = (dir =? 1)%Z ∧
  paddle_dx g' =
    (if dir =? -1 then -8 else if dir =? 1 then 8 else 0)%Z ∧
  score g' = score g ∧ lives g' = lives g ∧ balls g' = balls g ∧
  paddle_x g' = paddle_x g.
Proof.
  intros g'. unfold g'. rewrite press_snoc.
  assert (∀ ds h, score (press ds h) = score h ∧ lives (press ds h) = lives h ∧
                  balls (press ds h) = balls h ∧
                  paddle_x (press ds h) = paddle_x h) as Hk.
  { induction ds as [|d ds IH]; intros h; [done|].
    change (press (d :: ds) h) with (press ds (set_move d h)).
    destruct (IH (set_move d h)) as (->&->&->&->).
    unfold set_move. by repeat (destruct (_ =? _)%Z). }
  destruct (Hk dirs g) as (Hs&Hl&Hb&Hx).
  unfold paddle_dx, set_move.
  destruct (Z.eqb_spec dir (-1)) as [->|_]; [|destruct (dir =? 1)%Z]; simpl;
    rewrite ?Hs, ?Hl, ?Hb, ?Hx; done.
Qed.

(** ** The timers *)

Lemma update_over g : game_over g = true → update g = Some g.
Proof. intros H. unfold update. by rewrite H. Qed.

Lemma update_stays_over g g' :
  update g = Some g' → game_over g = true → game_over g' = true.
Proof. intros Hu Hg. rewrite update_over in Hu by done. by simplify_eq. Qed.

Lemma restart_not_over g g' : restart g = Some g' → game_over g' = false.
Proof.
  rewrite restart_eq. intros [= <-].
  by destruct (move_paddle_keeps
                 (reset (Tk.delete_all (canvas g)) (move_left g) (move_right g)))
    as (_&_&_&->&_).
Qed.

Lemma loop_init : Loop.init = Some (Loop.mkState start 1 1 false).
Proof. reflexivity. Qed.

Lemma loop_never_stalls P s :
  Loop.reachable_by P s →
  game_over (Loop.game s) = false →
  (1 ≤ Loop.update_timers s)%nat ∧ (1 ≤ Loop.spawn_timers s)%nat.
Proof.
  induction 1 as [s Hi|e s s' Hr IH _ Hen Hst].
  { rewrite loop_init in Hi. injection Hi as <-. simpl. lia. }
  destruct e; simpl in Hst, Hen.
  - unfold Loop.call_update in Hst. simpl in Hst.
    destruct (update (Loop.game s)) as [g'|] eqn:Hu; [|done].
    simpl in Hst. injection Hst as <-. simpl. intros Hgo. rewrite Hgo.
    destruct (game_over (Loop.game s)) eqn:Hg.
    + pose proof (update_stays_over _ _ Hu Hg). congruence.
    + destruct IH; [done|]. lia.
  - injection Hst as <-. simpl. unfold spawn_ball.
    destruct (game_over (Loop.game s)) eqn:Hg; [intros; congruence|].
    intros _. destruct IH; [done|]. lia.
  - injection Hst as <-. simpl.
    destruct (set_move_keeps dir (Loop.game s)) as (_&_&_&_&->). done.
  - destruct (Loop.r_bound s); [|by simplify_eq].
    unfold Loop.call_restart in Hst.
    destruct (restart (Loop.game s)) as [g'|] eqn:Hre; [|done].
    simpl in Hst. injection Hst as <-. simpl.
    rewrite (restart_not_over _ _ Hre). lia.
Qed.

Lemma loop_wf P s : Loop.reachable_by P s → wf (Loop.game s).
Proof.
  induction 1 as [s Hi|e s s' Hr IH _ Hen Hst].
  { rewrite loop_init in Hi. injection Hi as <-.
    apply wf_reset, canvas_ok_empty. }
  destruct e; simpl in Hst.
  - unfold Loop.call_update in Hst. simpl in Hst.
    destruct (update_total _ IH) as (g'&Hu&Hwf). rewrite Hu in Hst.
    simpl in Hst. by simplify_eq.
  - simplify_eq. by apply wf_spawn_ball.
  - simplify_eq. by apply wf_set_move.
  - destruct (Loop.r_bound s); [|by simplify_eq].
    unfold Loop.call_restart in Hst.
    destruct (restart_wf (Loop.game s)) as (g'&Hre&Hwf). rewrite Hre in Hst.
    simpl in Hst. by simplify_eq.
Qed.

Lemma loop_step_total e s : wf (Loop.game s) → is_Some (Loop.step e s).
Proof.
  intros Hwf. destruct e; simpl; eauto.
  - unfold Loop.call_update. simpl.
    destruct (update_total _ Hwf) as (g'&->&_). simpl. eauto.
  - destruct (Loop.r_bound s); [|eauto].
    unfold Loop.call_restart.
    destruct (restart_wf (Loop.game s)) as (g'&->&_). simpl. eauto.
Qed.

Lemma loop_over_bound P s :
  Loop.reachable_by P s →
  game_over (Loop.game s) = true → Loop.r_bound s = true.
Proof.
  induction 1 as [s Hi|e s s' Hr IH _ Hen Hst].
  { rewrite loop_init in Hi. by injection Hi as <-. }
  destruct e; simpl in Hst.
  - unfold Loop.call_update in Hst. simpl in Hst.
    destruct (update (Loop.game s)) as [g'|] eqn:Hu; [|done].
    simpl in Hst. injection Hst as <-. simpl. intros ->.
    destruct (game_over (Loop.game s)) eqn:Hg.
    + rewrite IH by done. done.
    + by rewrite orb_true_r.
  - injection Hst as <-. simpl. unfold spawn_ball.
    destruct (game_over (Loop.game s)) eqn:Hg; [by rewrite Hg|].
    simpl. congruence.
  - injection Hst as <-. simpl.
    destruct (set_move_keeps dir (Loop.game s)) as (_&_&_&_&->). done.
  - destruct (Loop.r_bound s) eqn:Hb.
    2:{ simplify_eq. intros H. rewrite Hb. by apply IH. }
    unfold Loop.call_restart in Hst.
    destruct (restart (Loop.game s)) as [g'|] eqn:Hre; [|done].
    simpl in Hst. injection Hst as <-. simpl. by rewrite Hb.
Qed.

Lemma loop_enabledb_true e s : loop_enabledb e s = true → Loop.enabled e s.
Proof.
  destruct e; simpl.
  - by intros H%bool_decide_eq_true.
  - rewrite !andb_true_iff, Z.leb_le, Z.leb_le.
    intros [[H%bool_decide_eq_true ?] ?]. done.
  - rewrite !orb_true_iff, !Z.eqb_eq. tauto.
  - done.
Qed.

Lemma loop_run_reachable P es s s' :
  Forall P es →
  Loop.reachable_by P s → loop_run es s = Some s' → Loop.reachable_by P s'.
Proof.
  intros HP. revert s. induction HP as [|e es He Hes IH]; intros s Hr Hrun.
  { simpl in Hrun. by simplify_eq. }
  simpl in Hrun. destruct (loop_enabledb e s) eqn:Hen; [|done].
  destruct (Loop.step e s) as [s1|] eqn:Hst; [|done]. simpl in Hrun.
  apply (IH s1); [|done].
  eapply Loop.reach_step; eauto using loop_enabledb_true.
Qed.

Lemma loop_after_reachable P es :
  Forall P es →
  is_Some (Loop.init ≫= loop_run es) → Loop.reachable_by P (loop_after es).
Proof.
  intros HP. unfold loop_after. rewrite loop_init. simpl.
  intros [s Hs]. rewrite Hs. simpl.
  eapply (loop_run_reachable P); [done| |done].
  apply Loop.reach_init, loop_init.
Qed.

(** X13: while the game is on there is always a call of [update] and a call
    of [spawn_ball] pending, so play never stalls; whenever the game is
    over the [r] key is bound, so the player can always restart; and no
    event the loop can deliver makes a callback raise. *)
Theorem timers_never_run_dry s :
  Loop.reachable s →
  (∀ e, is_Some (Loop.step e s)) ∧
  (game_over (Loop.game s) = false →
   (1 ≤ Loop.update_timers s)%nat ∧ (1 ≤ Loop.spawn_timers s)%nat) ∧
  (game_over (Loop.game s) = true → Loop.r_bound s = true).
Proof.
  intros Hr. split; [|split].
  - intros e. eapply loop_step_total, loop_wf, Hr.
  - by apply (loop_never_stalls (λ _, True)).
  - by apply (loop_over_bound (λ _, True)).
Qed.

(** X14: as long as [r] is not pressed there is one chain of each timer:
    exactly one call of [update] is pending while the game is on and none
    once it is over, at most one call of [spawn_ball] is pending (exactly
    one while the game is on), and [r] is bound exactly when the game is
    over. *)
Theorem one_chain_without_restart s :
  Loop.reachable_by (λ e, e ≠ Loop.PressR) s →
  Loop.update_timers s = (if game_over (Loop.game s) then 0 else 1)%nat ∧
  (Loop.spawn_timers s ≤ 1)%nat ∧
  (game_over (Loop.game s) = false → Loop.spawn_timers s = 1%nat) ∧
  Loop.r_bound s = game_over (Loop.game s).
Proof.
  induction 1 as [s Hi|e s s' Hr (IHu&IHs&IHp&IHr) HP Hen Hst].
  { rewrite loop_init in Hi. injection Hi as <-. simpl. lia. }
  destruct e; simpl in Hst, Hen; [| | |done].
  - unfold Loop.call_update in Hst. simpl in Hst.
    destruct (update (Loop.game s)) as [g'|] eqn:Hu; [|done].
    simpl in Hst. injection Hst as <-. simpl.
    destruct (game_over (Loop.game s)) eqn:Hg.
    + rewrite (update_stays_over _ _ Hu Hg). lia.
    + rewrite IHr. simpl. split; [lia|]. split; [lia|]. split; [tauto|done].
  - injection Hst as <-. simpl. unfold spawn_ball.
    destruct (game_over (Loop.game s)) eqn:Hg.
    + rewrite Hg. split; [done|]. split; [lia|]. split; [done|done].
    + simpl. rewrite Hg. split; [done|]. specialize (IHp eq_refl).
      split; [lia|]. split; [lia|done].
  - injection Hst as <-. simpl.
    destruct (set_move_keeps dir (Loop.game s)) as (_&_&_&_&->). done.
Qed.


(** X15: [restart] cancels no timer: pressing [r] once it is bound adds one
    pending call of [update] and one of [spawn_ball] to those there are
    and puts the game on; pressed while the game is on, it leaves at least
    two pending calls of each, so the game then ticks and spawns at least
    twice per interval.  Before the first game over [r] does nothing. *)
Theorem restart_adds_timers s :
  Loop.reachable s →
  (Loop.r_bound s = false → Loop.step Loop.PressR s = Some s) ∧
  (Loop.r_bound s = true →
   ∃ s', Loop.step Loop.PressR s = Some s' ∧
     game_over (Loop.game s') = false ∧
     Loop.update_timers s' = S (Loop.update_timers s) ∧
     Loop.spawn_timers s' = S (Loop.spawn_timers s) ∧
     (game_over (Loop.game s) = false →
      (2 ≤ Loop.update_timers s')%nat ∧ (2 ≤ Loop.spawn_timers s')%nat)).
Proof.
  intros Hr. split; intros Hb; simpl; rewrite Hb; [done|].
  unfold Loop.call_restart.
  destruct (restart (Loop.game s)) as [g'|] eqn:Hre.
  2:{ by rewrite restart_eq in Hre. }
  pose proof (restart_not_over _ _ Hre) as Hgo.
  simpl. eexists. split; [reflexivity|]. simpl. rewrite Hgo.
  split; [done|]. split; [lia|]. split; [lia|].
  intros Hon. destruct (loop_never_stalls _ s Hr Hon). lia.
Qed.

(** X16: once the game is over the pending timers run out: each pending call
    of [update] or [spawn_ball] that runs leaves the game as it is and
    schedules nothing, so one call fewer is pending. *)
Theorem game_over_winds_down s e :
  game_over (Loop.game s) = true →
  e ≠ Loop.PressR → (∀ dir, e ≠ Loop.KeyEv dir) → Loop.enabled e s →
  ∃ s', Loop.step e s = Some s' ∧ Loop.game s' = Loop.game s ∧
    (Loop.update_timers s' + Loop.spawn_timers s' + 1 =
     Loop.update_timers s + Loop.spawn_timers s)%nat.
Proof.
  intros Hgo Hr Hk Hen. destruct e; simpl in *.
  - unfold Loop.call_update. simpl. rewrite (update_over _ Hgo). simpl.
    eexists. split; [reflexivity|]. simpl. rewrite Hgo. split; [done|lia].
  - eexists. split; [reflexivity|]. simpl. unfold spawn_ball. rewrite Hgo.
    split; [done|lia].
  - by destruct (Hk dir).
  - done.
Qed.

(** ** Sample states for the further properties *)

Ltac allowed_run :=
  repeat first [apply Forall_cons; split; [simpl; first [lia|tauto|exact I]|]
               |apply Forall_nil_2].

Lemma one_ball_reachable : reachable (state_after one_ball).
Proof. apply state_after_reachable. unfold one_ball. allowed_run. Qed.

Lemma last_life_reachable : reachable (state_after last_life).
Proof. apply state_after_reachable. unfold last_life. allowed_run. Qed.

Lemma tick_moves_balls_witness :
  let g := state_after one_ball in
  let b := mkBall 4 BALL_RADIUS in
  game_over g = false ∧
  Tk.items (canvas g) !! ball_id b = Some [238; -20; 262; 4] ∧
  ∃ g', update g = Some g' ∧
    Tk.items (canvas g') !! ball_id b =
      Some [238 + 0; -20 + BALL_FALL_SPEED; 262 + 0; 4 + BALL_FALL_SPEED].
Proof.
  intros g b.
  assert (game_over g = false) as Hgo by (vm_compute; reflexivity).
  assert (Tk.items (canvas g) !! ball_id b = Some [238; -20; 262; 4]) as Hc
    by (vm_compute; reflexivity).
  assert (balls g = [b]) as Hbs by (vm_compute; reflexivity).
  assert (balls <$> update g = Some [b]) as Hbs' by (vm_compute; reflexivity).
  destruct (update_total g (state_after_wf _)) as (g'&Hup&_).
  rewrite Hup in Hbs'. injection Hbs' as Hbs'.
  assert (b ∈ balls g) as Hb by (rewrite Hbs; constructor).
  assert (b ∈ balls g') as Hb' by (rewrite Hbs'; constructor).
  destruct (tick_moves_balls g g' (state_after_wf _) Hgo Hup) as [Hmv _].
  destruct (Hmv b _ _ _ _ Hb Hc) as [Hin _].
  split; [exact Hgo|]. split; [exact Hc|].
  exists g'. split; [exact Hup|]. exact (Hin Hb').
Defined.

Lemma reachable_well_formed_witness :
  reachable (state_after last_life) ∧ wf (state_after last_life).
Proof.
  split; [exact last_life_reachable|].
  exact (reachable_well_formed _ last_life_reachable).
Defined.

Lemma callbacks_never_raise_witness :
  reachable (state_after last_life) ∧
  is_Some (fire Tick (state_after last_life)) ∧
  is_Some (run [Restart; Spawn 30; Tick] (state_after last_life)).
Proof.
  split; [exact last_life_reachable|].
  destruct (callbacks_never_raise _ last_life_reachable) as [Hf Hr].
  split; [exact (Hf Tick)|exact (Hr _)].
Defined.

Lemma at_left_wall_reachable : reachable (state_after at_left_wall).
Proof. apply state_after_reachable. unfold at_left_wall. allowed_run. Qed.

Lemma paddle_always_inside_witness :
  let g := state_after (at_left_wall ++ [Tick; Tick]) in
  reachable g ∧ paddle_x g == PADDLE_WIDTH / 2 ∧
  PADDLE_WIDTH / 2 <= paddle_x g <= WIDTH - PADDLE_WIDTH / 2.
Proof.
  intros g.
  assert (reachable g) as Hr.
  { apply state_after_reachable. unfold at_left_wall. allowed_run. }
  split; [exact Hr|]. split.
  - apply Qeq_bool_iff. vm_compute. reflexivity.
  - exact (proj1 (paddle_always_inside g Hr)).
Defined.

Lemma phase_follows_lives_witness :
  let g := state_after last_life in
  reachable g ∧ game_over g = false ∧ (1 <= lives g <= 3)%Z.
Proof.
  intros g.
  assert (game_over g = false) as Hgo by (vm_compute; reflexivity).
  split; [exact last_life_reachable|]. split; [exact Hgo|].
  destruct (phase_follows_lives g last_life_reachable) as (_&_&_&H).
  exact (H Hgo).
Defined.

Lemma live_balls_in_play_witness :
  let g := state_after last_life in
  let b := mkBall 6 BALL_RADIUS in
  reachable g ∧ b ∈ balls g ∧ ball_ok g b.
Proof.
  intros g b.
  assert (balls g = [b; mkBall 7 BALL_RADIUS]) as Hbs
    by (vm_compute; reflexivity).
  assert (b ∈ balls g) as Hb by (rewrite Hbs; constructor).
  split; [exact last_life_reachable|]. split; [exact Hb|].
  exact (proj1 (live_balls_in_play g b last_life_reachable Hb)).
Defined.

Lemma tick_accounting_witness :
  let g := state_after last_life in
  game_over g = false ∧
  ∃ g', update g = Some g' ∧
    Z.of_nat (length (balls g)) =
      ((score g' - score g) + (lives g - lives g')
       + Z.of_nat (length (balls g')))%Z.
Proof.
  intros g.
  assert (game_over g = false) as Hgo by (vm_compute; reflexivity).
  split; [exact Hgo|].
  destruct (tick_accounting g (state_after_wf _) Hgo) as (g'&Hup&_&_&_&Hsum&_).
  exists g'. exact (conj Hup Hsum).
Defined.

Lemma spawn_adds_one_ball_witness :
  let g := state_after one_ball in
  game_over g = false ∧
  ∃ b, balls (spawn_ball 30 g) = balls g ++ [b] ∧
       (ball_id b ∉ ball_id <$> balls g).
Proof.
  intros g.
  assert (game_over g = false) as Hgo by (vm_compute; reflexivity).
  split; [exact Hgo|].
  destruct (spawn_adds_one_ball 30 g (state_after_wf _) Hgo) as (b&Hb&Hn&_).
  exists b. exact (conj Hb Hn).
Defined.

Lemma first_game_over_reachable : Loop.reachable (loop_after first_game_over).
Proof.
  apply loop_after_reachable.
  - apply Forall_forall. done.
  - vm_compute. eexists. reflexivity.
Qed.

Lemma timers_never_run_dry_witness :
  let s := loop_after first_game_over in
  Loop.reachable s ∧ game_over (Loop.game s) = true ∧ Loop.r_bound s = true ∧
  is_Some (Loop.step Loop.PressR s).
Proof.
  intros s.
  assert (game_over (Loop.game s) = true) as Hgo by (vm_compute; reflexivity).
  destruct (timers_never_run_dry s first_game_over_reachable) as (Hst&_&Hb).
  split; [exact first_game_over_reachable|]. split; [exact Hgo|].
  split; [exact (Hb Hgo)|exact (Hst _)].
Defined.

Lemma one_chain_without_restart_witness :
  let s := loop_after first_game_over in
  Loop.reachable_by (λ e, e ≠ Loop.PressR) s ∧
  game_over (Loop.game s) = true ∧
  Loop.update_timers s = 0%nat ∧ (Loop.spawn_timers s ≤ 1)%nat.
Proof.
  intros s.
  assert (Loop.reachable_by (λ e, e ≠ Loop.PressR) s) as Hr.
  { apply loop_after_reachable.
    - unfold first_game_over, lose_a_ball.
      repeat first [apply Forall_cons; split; [discriminate|]
                   |apply Forall_app; split
                   |apply Forall_nil_2].
    - vm_compute. eexists. reflexivity. }
  assert (game_over (Loop.game s) = true) as Hgo by (vm_compute; reflexivity).
  destruct (one_chain_without_restart s Hr) as (Hu&Hs&_).
  rewrite Hgo in Hu.
  split; [exact Hr|]. split; [exact Hgo|]. split; [exact Hu|exact Hs].
Defined.

Lemma restart_adds_timers_witness :
  let s := loop_after (first_game_over ++ [Loop.PressR]) in
  Loop.reachable s ∧ Loop.r_bound s = true ∧ game_over (Loop.game s) = false ∧
  ∃ s', Loop.step Loop.PressR s = Some s' ∧
        (2 ≤ Loop.update_timers s')%nat ∧ (2 ≤ Loop.spawn_timers s')%nat.
Proof.
  intros s.
  assert (Loop.reachable s) as Hr.
  { apply loop_after_reachable.
    - apply Forall_forall. done.
    - vm_compute. eexists. reflexivity. }
  assert (Loop.r_bound s = true) as Hb by (vm_compute; reflexivity).
  assert (game_over (Loop.game s) = false) as Hgo by (vm_compute; reflexivity).
  destruct (restart_adds_timers s Hr) as [_ H].
  destruct (H Hb) as (s'&Hst&_&_&_&H2).
  split; [exact Hr|]. split; [exact Hb|]. split; [exact Hgo|].
  exists s'. exact (conj Hst (H2 Hgo)).
Defined.

Lemma game_over_winds_down_witness :
  let s := loop_after first_game_over in
  game_over (Loop.game s) = true ∧ Loop.enabled (Loop.SpawnTimer 100) s ∧
  ∃ s', Loop.step (Loop.SpawnTimer 100) s = Some s' ∧
        Loop.game s' = Loop.game s.
Proof.
  intros s.
  assert (game_over (Loop.game s) = true) as Hgo by (vm_compute; reflexivity).
  assert (Loop.enabled (Loop.SpawnTimer 100) s) as Hen.
  { apply loop_enabledb_true. vm_compute. reflexivity. }
  destruct (game_over_winds_down s (Loop.SpawnTimer 100) Hgo) as (s'&Hst&Hg&_).
  - discriminate.
  - intros dir. discriminate.
  - exact Hen.
  - split; [exact Hgo|]. split; [exact Hen|]. exists s'. exact (conj Hst Hg).
Defined.

(** ** Coordinates are whole numbers *)

Lemma whole_Z z : whole (inject_Z z).
Proof. by exists z. Qed.

Lemma whole_eq a b : a == b → whole a → whole b.
Proof. intros Hab [z Hz]. exists z. by rewrite <- Hab. Qed.

Lemma whole_plus a b : whole a → whole b → whole (a + b).
Proof.
  intros [x Hx] [y Hy]. exists (x + y)%Z. by rewrite Hx, Hy, inject_Z_plus.
Qed.

Lemma whole_opp a : whole a → whole (- a).
Proof. intros [x Hx]. exists (- x)%Z. by rewrite Hx, inject_Z_opp. Qed.

Lemma whole_minus a b : whole a → whole b → whole (a - b).
Proof. intros Ha Hb. apply whole_plus; [done|by apply whole_opp]. Qed.

Lemma whole_half_width : whole (PADDLE_WIDTH / 2).
Proof. exists 50%Z. reflexivity. Qed.

Lemma whole_WIDTH : whole WIDTH.
Proof. exists 500%Z. reflexivity. Qed.

Lemma whole_shift dx dy cs :
  whole dx → whole dy → Forall whole cs → Forall whole (Tk.shift dx dy cs).
Proof.
  intros Hx Hy.
  assert (∀ n cs, (length cs ≤ n)%nat → Forall whole cs →
                  Forall whole (Tk.shift dx dy cs)) as H.
  { induction n as [|n IH]; intros [|a [|b l]] Hn Hl; simpl in *;
      try done; try lia.
    apply Forall_cons in Hl as [Ha Hl]. apply Forall_cons in Hl as [Hb Hl].
    apply Forall_cons. split; [by apply whole_plus|].
    apply Forall_cons. split; [by apply whole_plus|].
    apply IH; [lia|done]. }
  intros Hcs. by apply (H (length cs)).
Qed.

Lemma whole_canvas_move i dx dy c :
  whole dx → whole dy → whole_canvas c → whole_canvas (Tk.move i dx dy c).
Proof.
  intros Hx Hy Hc j cs. simpl. rewrite lookup_alter.
  case_decide; [|by apply Hc].
  destruct (Tk.items c !! i) as [cs0|] eqn:E; [|done].
  intros [= <-]. apply whole_shift; try done. by apply (Hc i).
Qed.

Lemma whole_canvas_delete i c : whole_canvas c → whole_canvas (Tk.delete i c).
Proof.
  intros Hc j cs. simpl. rewrite lookup_delete.
  case_decide; [done|]. by apply Hc.
Qed.

Lemma whole_canvas_create cs c :
  Forall whole cs → whole_canvas c → whole_canvas (Tk.create cs c).2.
Proof.
  intros Hcs Hc j cs'. simpl. rewrite lookup_insert.
  case_decide; [by intros [= <-]|]. by apply Hc.
Qed.

Lemma whole_end_game g : whole_game g → whole_game (end_game g).
Proof.
  intros [Hx Hc]. split; [done|]. unfold end_game.
  cbn [canvas with_canvas with_game_over].
  apply whole_canvas_create.
  { repeat (apply Forall_cons; split); [exists 250%Z|exists 260%Z|done];
      reflexivity. }
  apply whole_canvas_create; [|done].
  repeat (apply Forall_cons; split); [exists 250%Z|exists 200%Z|done];
    reflexivity.
Qed.

Lemma whole_slide d g : whole d → whole_game g → whole_game (slide d g).
Proof.
  intros Hd [Hx Hc]. split; simpl.
  - by apply whole_plus.
  - apply whole_canvas_move; [done|by exists 0%Z|done].
Qed.

Lemma whole_move_paddle g : whole_game g → whole_game (move_paddle g).
Proof.
  intros Hg. rewrite move_paddle_slides.
  destruct (negb _); [|done]. cbv zeta.
  assert (whole_game (slide (inject_Z (paddle_dx g)) g)) as H1.
  { apply whole_slide; [apply whole_Z|done]. }
  set (g1 := slide (inject_Z (paddle_dx g)) g) in *.
  assert (whole (paddle_x g1)) as Hx1 by apply H1.
  assert (whole_game (if Qlt_b (paddle_x g1 - PADDLE_WIDTH / 2) 0
                      then slide (- (paddle_x g1 - PADDLE_WIDTH / 2)) g1
                      else g1)) as H2.
  { destruct (Qlt_b _ _); [|done]. apply whole_slide; [|done].
    apply whole_opp, whole_minus; [done|apply whole_half_width]. }
  destruct (Qlt_b WIDTH _); [|done]. apply whole_slide; [|done].
  apply whole_minus; [apply whole_WIDTH|].
  apply whole_plus; [done|apply whole_half_width].
Qed.

Lemma whole_advanced b g :
  whole_game g → whole_game (with_canvas (advanced b g) g).
Proof.
  intros [Hx Hc]. split; [done|]. simpl.
  apply whole_canvas_move; [by exists 0%Z|by exists 4%Z|done].
Qed.

Lemma whole_update_ball b g g' :
  update_ball b g = Some g' → whole_game g → whole_game g'.
Proof.
  intros Hup Hg. pose proof (whole_advanced b g Hg) as [Hx Hc].
  assert (whole_canvas (Ball_remove b (advanced b g))) as Hd
    by (by apply whole_canvas_delete).
  unfold update_ball, past_bottom in Hup.
  repeat (case_match; simplify_option_eq); try done;
    try (split; done); apply whole_end_game; split; done.
Qed.

Lemma whole_for_balls l g g' :
  for_balls l g = Some g' → whole_game g → whole_game g'.
Proof.
  revert g. induction l as [|b l IH]; intros g Hrun Hg; simpl in Hrun.
  { by simplify_eq. }
  destruct (update_ball b g) as [g1|] eqn:E; [|done]. simpl in Hrun.
  eauto using whole_update_ball.
Qed.

Lemma whole_reset c ml mr : whole_canvas c → whole_game (reset c ml mr).
Proof.
  intros Hc. split.
  { rewrite reset_paddle_x. exists 250%Z. reflexivity. }
  unfold reset. cbn [canvas Tk.create].
  apply whole_canvas_create.
  { repeat (apply Forall_cons; split); [exists 490%Z|exists 10%Z|done];
      reflexivity. }
  apply whole_canvas_create.
  { repeat (apply Forall_cons; split); [exists 10%Z|exists 10%Z|done];
      reflexivity. }
  apply whole_canvas_create; [|done].
  repeat (apply Forall_cons; split);
    [exists 200%Z|exists 358%Z|exists 300%Z|exists 370%Z|done]; reflexivity.
Qed.

Lemma whole_canvas_empty n : whole_canvas (Tk.mkCanvas ∅ n).
Proof. intros i cs. simpl. by rewrite lookup_empty. Qed.

(** X17: every coordinate the game keeps is a whole number: the paddle's
    centre and every coordinate of every canvas item, in every reachable
    game; so the float sums, differences and halves of the program are
    exact. *)
Theorem coordinates_are_whole g :
  reachable g →
  whole (paddle_x g) ∧
  ∀ i cs, Tk.items (canvas g) !! i = Some cs → Forall whole cs.
Proof.
  revert g. apply (run_invariant whole_game).
  { apply whole_reset, whole_canvas_empty. }
  intros e h h' _ Hh Hal Hf. destruct e; simpl in Hf.
  - unfold update in Hf. destruct (game_over h); [by simplify_eq|].
    eauto using whole_for_balls, whole_move_paddle.
  - simplify_eq. unfold spawn_ball. destruct (game_over h); [done|].
    destruct Hh as [Hx Hc]. split; [done|].
    cbn [canvas with_canvas with_balls Ball_new Tk.create snd].
    apply (whole_canvas_create _ (canvas h)); [|done].
    assert (whole BALL_RADIUS) as Hr by (by exists 12%Z).
    repeat (apply Forall_cons; split); try done.
    + apply whole_minus; [apply whole_Z|done].
    + apply whole_minus; [by apply whole_opp|done].
    + apply whole_plus; [apply whole_Z|done].
    + apply whole_plus; [by apply whole_opp|done].
  - simplify_eq. unfold set_move. by repeat (destruct (_ =? _)%Z).
  - rewrite restart_eq in Hf. simplify_eq.
    apply whole_move_paddle, whole_reset, whole_canvas_empty.
Qed.

Lemma coordinates_are_whole_witness :
  reachable (state_after last_life) ∧ whole (paddle_x (state_after last_life)).
Proof.
  split; [exact last_life_reachable|].
  exact (proj1 (coordinates_are_whole _ last_life_reachable)).
Defined.

(** ** How long a ball stays *)

Lemma run_app es1 es2 g : run (es1 ++ es2) g = run es1 g ≫= run es2.
Proof.
  revert g. induction es1 as [|e es1 IH]; intros g; [done|].
  simpl. destruct (fire e g) as [g1|]; simpl; [apply IH|done].
Qed.

Lemma reachable_run es g g' :
  reachable g → Forall allowed es → run es g = Some g' → reachable g'.
Proof.
  intros (g0&es0&Hi&Hal0&Hr0) Hal Hr.
  exists g0, (es0 ++ es). split; [done|]. split; [by apply Forall_app|].
  rewrite run_app, Hr0. done.
Qed.

Lemma update_next_id g g' :
  wf g → update g = Some g' →
  (Tk.next_id (canvas g) ≤ Tk.next_id (canvas g'))%nat.
Proof.
  intros Hwf Hup. unfold update in Hup.
  destruct (game_over g); [by simplify_eq|].
  pose proof (wf_move_paddle g Hwf) as Hwfp.
  destruct (for_balls_canvas _ _ _ Hwfp (wf_nodup _ Hwfp) (λ b H, H) Hup)
    as (Hn&_).
  assert (Tk.next_id (canvas (move_paddle g)) = Tk.next_id (canvas g)) as <-;
    [|done].
  rewrite move_paddle_slides. destruct (negb _); [|done]. cbv zeta.
  repeat (destruct (Qlt_b _ _)); done.
Qed.

(** One event: an earlier id stays earlier, a ball out of the list stays
    out, and a ball that stays in has fallen by the fall speed when the
    event is a tick of a game that is on. *)
Lemma fire_ages e h h' b q :
  wf h → e ≠ Restart → fire e h = Some h' → game_over h' = false →
  (ball_id b < Tk.next_id (canvas h))%nat →
  (b ∈ balls h → top_from q h b) →
  (ball_id b < Tk.next_id (canvas h'))%nat ∧
  (b ∈ balls h' →
   b ∈ balls h ∧
   top_from (q + (if e is Tick then BALL_FALL_SPEED else 0)) h' b).
Proof.
  intros Hwf He Hf Hon Hid Htop. destruct e; simpl in Hf; [| | |done].
  - pose proof (update_next_id h h' Hwf Hf) as Hn. split; [lia|].
    destruct (game_over h) eqn:Hgo.
    { rewrite update_over in Hf by done. simplify_eq. congruence. }
    destruct (update_live h Hwf Hgo) as (h''&Hup&_&_&_&_&_&_&Hbs).
    assert (h'' = h') as -> by congruence.
    intros Hb'. pose proof Hb' as Hb. rewrite Hbs in Hb.
    apply list_elem_of_filter in Hb as [_ Hb]. split; [done|].
    destruct (Htop Hb) as (x1&y1&x2&y2&Hc&Hq).
    destruct (update_canvas h h' Hwf Hgo Hf) as [Hmv _].
    destruct (Hmv b x1 y1 x2 y2 Hb Hc) as [Hc' _].
    do 4 eexists. split; [by apply Hc'|]. lra.
  - simplify_eq. destruct (game_over h) eqn:Hgo.
    { unfold spawn_ball in Hon. rewrite Hgo in Hon. congruence. }
    rewrite (spawn_ball_on x h Hgo). cbn [canvas with_canvas with_balls balls].
    split; [simpl; lia|].
    intros [Hb|Hb]%elem_of_app.
    + split; [done|]. destruct (Htop Hb) as (x1&y1&x2&y2&Hc&Hq).
      exists x1, y1, x2, y2. cbn [canvas with_canvas with_balls].
      rewrite lookup_create_old by done.
      split; [done|lra].
    + apply list_elem_of_singleton in Hb. subst b. simpl in Hid. lia.
  - simplify_eq. destruct (set_move_keeps dir h) as (_&_&Hb&Hc&_).
    rewrite Hc, Hb. split; [done|]. intros Hin. split; [done|].
    destruct (Htop Hin) as (x1&y1&x2&y2&Hc'&Hq).
    exists x1, y1, x2, y2. unfold top_from. rewrite Hc. split; [done|lra].
Qed.

Lemma fire_stays_on e h h' :
  e ≠ Restart → fire e h = Some h' → game_over h' = false →
  game_over h = false.
Proof.
  intros He Hf Hon. destruct e; simpl in Hf; [| | |done].
  - destruct (game_over h) eqn:Hgo; [|done].
    rewrite update_over in Hf by done. simplify_eq. congruence.
  - simplify_eq. destruct (game_over h) eqn:Hgo; [|done].
    unfold spawn_ball in Hon. rewrite Hgo in Hon. congruence.
  - simplify_eq. destruct (set_move_keeps dir h) as (_&_&_&_&E).
    by rewrite <- E.
Qed.

Lemma run_ages es h h' b q :
  wf h → Forall (λ e, e ≠ Restart) es →
  run es h = Some h' → game_over h' = false →
  (ball_id b < Tk.next_id (canvas h))%nat →
  (b ∈ balls h → top_from q h b) →
  b ∈ balls h' →
  top_from (q + BALL_FALL_SPEED * inject_Z (Z.of_nat (ticks es))) h' b.
Proof.
  intros Hwf Hes. revert h q Hwf.
  induction Hes as [|e es He Hes IH]; intros h q Hwf Hr Hon Hid Htop Hb'.
  { simpl in Hr. simplify_eq. destruct (Htop Hb') as (x1&y1&x2&y2&Hc&Hq).
    exists x1, y1, x2, y2. split; [done|]. cbn [ticks].
    change (inject_Z (Z.of_nat 0)) with 0. unfold BALL_FALL_SPEED. lra. }
  simpl in Hr. destruct (fire_total e h Hwf) as (h1&Hf&Hwf1).
  rewrite Hf in Hr. simpl in Hr.
  assert (game_over h1 = false) as Hon1.
  { clear -Hes Hr Hon. revert h1 Hr.
    induction Hes as [|e' es' He' Hes' IH']; intros h1 Hr; simpl in Hr.
    - by simplify_eq.
    - destruct (fire e' h1) as [h2|] eqn:Hf; [|done]. simpl in Hr.
      eapply fire_stays_on; eauto. }
  destruct (fire_ages e h h1 b q Hwf He Hf Hon1 Hid Htop) as [Hid1 Hstep].
  destruct (IH h1 (q + (if e is Tick then BALL_FALL_SPEED else 0))
              Hwf1 Hr Hon Hid1) as (x1&y1&x2&y2&Hc&Hq); [|done|].
  { intros Hb1. by apply Hstep. }
  exists x1, y1, x2, y2. split; [done|].
  destruct e; simpl ticks; rewrite ?Nat2Z.inj_succ; unfold Z.succ;
    rewrite ?inject_Z_plus; unfold BALL_FALL_SPEED in *;
    change (inject_Z 1) with 1; try lra.
Qed.

(** X8: no ball stays live through 107 ticks of play: from any reachable
    game, after a run without restart that has at least 107 ticks and
    ends with the game still on, every ball that was live at the start
    has been caught or missed. *)
Theorem ball_settled_in_107_ticks g g' b es :
  reachable g → b ∈ balls g →
  Forall allowed es → Forall (λ e, e ≠ Restart) es →
  run es g = Some g' → game_over g' = false →
  (107 ≤ ticks es)%nat →
  b ∉ balls g'.
Proof.
  intros Hr Hb Hal Hes Hrun Hon Hn Hb'.
  pose proof (reachable_wf g Hr) as Hwf.
  pose proof (reachable_run es g g' Hr Hal Hrun) as Hr'.
  destruct (live_balls_ok g Hr b Hb)
    as (_&x1&y1&x2&y2&x&y&Hc&_&Hy1&_&_&_&Hy&_).
  destruct (run_ages es g g' b (- (2 * BALL_RADIUS)) Hwf Hes Hrun Hon)
    as (x1'&y1'&x2'&y2'&Hc'&Hq); [by apply live_below_next| |done|].
  { intros _. exists x1, y1, x2, y2. split; [done|].
    unfold BALL_RADIUS in *. lra. }
  destruct (live_balls_ok g' Hr' b Hb')
    as (_&a1&b1&a2&b2&x'&y'&Hc''&_&Hb1&_&_&_&_&Htop).
  rewrite Hc' in Hc''. injection Hc'' as <- <- <- <-.
  assert (107 <= inject_Z (Z.of_nat (ticks es))) as Hk.
  { change 107 with (inject_Z 107). rewrite <- Zle_Qle. lia. }
  unfold BALL_RADIUS, BALL_FALL_SPEED, HEIGHT in *. lra.
Qed.

Lemma ball_settled_in_107_ticks_witness :
  let g := state_after one_ball in
  let b := mkBall 4 BALL_RADIUS in
  reachable g ∧ b ∈ balls g ∧
  ∃ g', run (replicate 107 Tick) g = Some g' ∧ game_over g' = false ∧
        (b ∉ balls g').
Proof.
  intros g b.
  assert (balls g = [b]) as Hbs by (vm_compute; reflexivity).
  assert (b ∈ balls g) as Hb by (rewrite Hbs; constructor).
  destruct (run_total (replicate 107 Tick) g (state_after_wf _)) as (g'&Hrun&_).
  assert (game_over <$> run (replicate 107 Tick) g = Some false) as Hon
    by (vm_compute; reflexivity).
  rewrite Hrun in Hon. injection Hon as Hon.
  assert (Forall allowed (replicate 107 Tick)) as Hal by allowed_run.
  assert (Forall (λ e, e ≠ Restart) (replicate 107 Tick)) as Hnr.
  { repeat first [apply Forall_cons; split; [discriminate|]|apply Forall_nil_2]. }
  assert (107 ≤ ticks (replicate 107 Tick))%nat as Hn.
  { apply Nat.leb_le. vm_compute. reflexivity. }
  split; [exact one_ball_reachable|]. split; [exact Hb|].
  exists g'. split; [exact Hrun|]. split; [exact Hon|].
  exact (ball_settled_in_107_ticks g g' b _ one_ball_reachable Hb Hal Hnr
           Hrun Hon Hn).
Defined.
